(** * LiteScope capture core: trigger, sub-sampler and storage controller

    Shallow embedding of [litescope/core.py].  The design is synchronous
    hardware written in Migen: every module is a set of registers (the
    [sync] statements) and a combinational network over them (the [comb]
    statements).  A module is embedded as

    - a record of its registers,
    - a record of the signals it samples in one clock cycle,
    - a function giving its combinational outputs in that cycle, and
    - a function giving the registers after the clock edge.

    Unsigned signals are [Z] (payload words, counters with their
    wrap-around written out) or [nat] (fill levels, which are list
    lengths). *)

From Stdlib Require Import ZArith List Bool Arith Lia.
From Stdlib Require String Ascii DecimalString.
Import ListNotations.

Local Open Scope Z_scope.

(** ** Signals and library primitives *)

(** An unsigned signal of [w] bits keeps the low [w] bits of what is
    assigned to it. *)
Definition trunc (w x : Z) : Z := x mod 2 ^ w.

(** The [n] most recent elements of a sequence kept oldest first. *)
Definition lastn {A : Type} (n : nat) (l : list A) : list A :=
  skipn (length l - n) l.

(** Skip [j] elements, keep one, and from then on keep one after every
    [n] skipped. *)
Fixpoint every {A : Type} (n j : nat) (l : list A) : list A :=
  match l with
  | [] => []
  | x :: t =>
      match j with
      | O => x :: every n n t
      | S j' => every n j' t
      end
  end.

(** [core_layout(dw, hw)]: the payload of every stream of the core. *)
Record payload : Type := Payload { data : Z; hit : Z }.

(** [MultiReg(i, o, cd)]: the two-register synchroniser of the gateware
    library ([genlib.cdc], not part of this repository).  [o] is the
    second register; each clock edge shifts [i] in. *)
Module MultiReg.

Record t : Type := Make { r0 : Z; r1 : Z }.

Definition reset : t := Make 0 0.

Definition o (m : t) : Z := r1 m.

Definition step (w : Z) (i : Z) (m : t) : t := Make (trunc w i) (r0 m).

End MultiReg.

(** ** FrontendTrigger *)

Module Trigger.

(** Signals sampled in one cycle: the two CSR storages, the sink side
    of the stream and the downstream [ready]. *)
Record inputs : Type := Inputs {
  value_storage : Z;
  mask_storage  : Z;
  sink_valid    : bool;
  sink          : payload;
  source_ready  : bool
}.

(** Registers: the synchronisers of [value] and [mask]. *)
Record state : Type := State {
  value_sync : MultiReg.t;
  mask_sync  : MultiReg.t
}.

Record outputs : Type := Outputs {
  source_valid : bool;
  source       : payload;
  sink_ready   : bool
}.

Definition reset : state := State MultiReg.reset MultiReg.reset.

Definition value (s : state) : Z := MultiReg.o (value_sync s).
Definition mask (s : state) : Z := MultiReg.o (mask_sync s).

(** [dw = len(self.sink.payload.raw_bits())]: the CSRs and their
    synchronised copies are as wide as the whole payload, data and hit
    bit together. *)
Definition csr_width (dw : Z) : Z := dw + 1.

(** [self.source.hit.eq((self.sink.data & mask) == value)] *)
Definition match_hit (s : state) (d : Z) : Z :=
  if Z.land d (mask s) =? value s then 1 else 0.

(** The [comb] block: [sink.connect(source)] forwards valid and payload
    downstream and ready upstream; the later assignment to [source.hit]
    overrides the forwarded hit. *)
Definition comb (s : state) (i : inputs) : outputs :=
  Outputs (sink_valid i)
          (Payload (data (sink i)) (match_hit s (data (sink i))))
          (source_ready i).

Definition step (dw : Z) (s : state) (i : inputs) : state :=
  State (MultiReg.step (csr_width dw) (value_storage i) (value_sync s))
        (MultiReg.step (csr_width dw) (mask_storage i) (mask_sync s)).

(** Outputs of consecutive cycles. *)
Fixpoint run (dw : Z) (s : state) (tr : list inputs) : list outputs :=
  match tr with
  | [] => []
  | i :: tr' => comb s i :: run dw (step dw s i) tr'
  end.

(** Words taken from upstream: cycles with [sink.valid & sink.ready]. *)
Definition accepted (tr : list inputs) (os : list outputs) : list Z :=
  map (fun io => data (sink (fst io)))
      (filter (fun io => sink_valid (fst io) && sink_ready (snd io))
              (combine tr os)).

(** Words handed downstream: cycles with [source.valid & source.ready]. *)
Definition emitted (tr : list inputs) (os : list outputs) : list Z :=
  map (fun io => data (source (snd io)))
      (filter (fun io => source_valid (snd io) && source_ready (fst io))
              (combine tr os)).

End Trigger.

(** ** FrontendSubSampler *)

Module SubSampler.

Record inputs : Type := Inputs {
  sink_valid   : bool;
  sink         : payload;
  source_ready : bool
}.

Record outputs : Type := Outputs {
  source_valid : bool;
  source       : payload;
  sink_ready   : bool
}.

(** The module's only state register is [counter = Signal(16)].
    [value] is the synchronised copy of the 16-bit CSR; it is a
    parameter of every cycle. *)
Definition counter_reset : Z := 0.

(** [done.eq(counter == value)] *)
Definition done (value counter : Z) : bool := counter =? value.

(** [sink.connect(source, leave_out={"valid"})] and
    [source.valid.eq(sink.valid & done)]. *)
Definition comb (value counter : Z) (i : inputs) : outputs :=
  Outputs (sink_valid i && done value counter) (sink i) (source_ready i).

(** The [sync] block on [counter]. *)
Definition step (value counter : Z) (i : inputs) : Z :=
  if source_ready i then
    if done value counter then 0
    else if sink_valid i then trunc 16 (counter + 1)
    else counter
  else counter.

Fixpoint run (value counter : Z) (tr : list inputs) : list outputs :=
  match tr with
  | [] => []
  | i :: tr' => comb value counter i :: run value (step value counter i) tr'
  end.

(** Samples taken from upstream, in order. *)
Fixpoint accepted (value counter : Z) (tr : list inputs) : list payload :=
  match tr with
  | [] => []
  | i :: tr' =>
      let o := comb value counter i in
      (if sink_valid i && sink_ready o then [sink i] else [])
        ++ accepted value (step value counter i) tr'
  end.

(** Samples handed downstream, in order. *)
Fixpoint emitted (value counter : Z) (tr : list inputs) : list payload :=
  match tr with
  | [] => []
  | i :: tr' =>
      let o := comb value counter i in
      (if source_valid o && source_ready i then [source o] else [])
        ++ emitted value (step value counter i) tr'
  end.

(** No cycle has the counter at [value] and downstream ready while the
    input is not valid. *)
Fixpoint valid_when_due (value counter : Z) (tr : list inputs) : bool :=
  match tr with
  | [] => true
  | i :: tr' =>
      implb (source_ready i && done value counter) (sink_valid i)
        && valid_when_due value (step value counter i) tr'
  end.

(** An always-valid, always-ready cycle carrying the word [d]. *)
Definition tick (d : Z) : inputs := Inputs true (Payload d 0) true.

End SubSampler.

(** ** The storage FIFO *)

(** [stream.SyncFIFO(layout, depth, buffered=True)] is a component of the
    gateware library, not of this repository.  It is the library's
    [SyncFIFOBuffered]: a synchronous-read FIFO of [depth] words followed
    by one output register.  Its registers are embedded as

    - [q]        the words held by the inner FIFO, oldest first
                 (its [level] is [length q]),
    - [dout]     the output register ([source.data]),
    - [readable] whether [dout] holds a word ([source.valid]).

    The library's equations, with [we = sink.valid] and [re = source.ready]:

    - inner [writable = (inner level != depth)] drives [sink.ready];
    - inner [re = inner readable & (~readable | re)];
    - [readable] is set when the inner FIFO is read, else cleared by [re];
    - [level = inner level + readable]. *)

Module SyncFIFO.

Record t : Type := Make {
  q        : list Z;
  dout     : Z;
  readable : bool
}.

Definition reset : t := Make [] 0 false.

Definition inner_level (f : t) : nat := length (q f).

Definition level (f : t) : nat :=
  (inner_level f + (if readable f then 1 else 0))%nat.

Definition writable (depth : nat) (f : t) : bool :=
  negb (inner_level f =? depth)%nat.

Definition inner_readable (f : t) : bool :=
  negb (inner_level f =? 0)%nat.

Definition inner_re (f : t) (re : bool) : bool :=
  inner_readable f && (negb (readable f) || re).

Definition step (depth : nat) (f : t) (we : bool) (din : Z) (re : bool) : t :=
  let rd := inner_re f re in
  let wr := we && writable depth f in
  Make ((if rd then tl (q f) else q f) ++ (if wr then [din] else []))
       (if rd then hd (dout f) (q f) else dout f)
       (if rd then true else if re then false else readable f).

(** The words the FIFO holds, oldest first: the output register, when it
    is valid, is the tail end the reader sees. *)
Definition contents (f : t) : list Z :=
  (if readable f then [dout f] else []) ++ q f.

(** What every state reached from [reset] satisfies: the inner FIFO is
    within its depth, and it holds at most one word while the output
    register is empty. *)
Definition wf (depth : nat) (f : t) : Prop :=
  (inner_level f <= depth)%nat /\
  (readable f = false -> inner_level f <= 1)%nat.

End SyncFIFO.

(** ** AnalyzerStorage *)

Inductive fsm_state : Type := IDLE | WAIT | RUN.

Module Storage.

(** Constructor arguments [AnalyzerStorage(dw, depth, cd_ratio)]. *)
Record params : Type := Params {
  dw       : Z;
  depth    : nat;
  cd_ratio : nat
}.

(** [depth//cd_ratio], the depth the FIFO is built with. *)
Definition mem_depth (p : params) : nat := (depth p / cd_ratio p)%nat.

(** The two [CSRStorage] registers the host writes. *)
Record csr : Type := Csr {
  length_storage : nat;
  offset_storage : nat
}.

(** Signals sampled in one cycle: the strobes of the [start] and
    [mem_ready] CSRs and the sink side of the stream (one word of
    [dw] bits with [cd_ratio] hit bits). *)
Record inputs : Type := Inputs {
  start_re     : bool;
  mem_ready_re : bool;
  mem_ready_r  : bool;
  sink_valid   : bool;
  sink         : payload
}.

Record state : Type := State {
  fsm : fsm_state;
  mem : SyncFIFO.t
}.

Record outputs : Type := Outputs {
  idle_status : bool;
  wait_status : bool;
  run_status  : bool;
  sink_ready  : bool;
  mem_valid   : bool;
  mem_data    : Z
}.

Definition reset : state := State IDLE SyncFIFO.reset.

Definition level (s : state) : nat := SyncFIFO.level (mem s).
Definition contents (s : state) : list Z := SyncFIFO.contents (mem s).
Definition writable (p : params) (s : state) : bool :=
  SyncFIFO.writable (mem_depth p) (mem s).

(** The FIFO invariant, on the controller's state. *)
Definition wf (p : params) (s : state) : Prop :=
  SyncFIFO.wf (mem_depth p) (mem s).

(** Outside RUN the inner FIFO has room for one more word. *)
Definition has_room (p : params) (s : state) : Prop :=
  wf p s /\
  (fsm s <> RUN -> (SyncFIFO.inner_level (mem s) < mem_depth p)%nat).

(** [~mem.sink.ready | (mem.level >= self.length.storage)] *)
Definition run_exit (p : params) (c : csr) (s : state) : bool :=
  negb (writable p s) || (length_storage c <=? level s)%nat.

(** [mem.sink.valid]: driven by [sink.connect(mem.sink, ...)] in WAIT
    and RUN, left at its reset value 0 in IDLE. *)
Definition mem_we (s : state) (i : inputs) : bool :=
  match fsm s with
  | IDLE => false
  | WAIT | RUN => sink_valid i
  end.

(** [mem.source.ready], per state. *)
Definition mem_re (p : params) (c : csr) (s : state) (i : inputs) : bool :=
  match fsm s with
  | IDLE => mem_ready_re i && mem_ready_r i
  | WAIT => (offset_storage c <=? level s)%nat
  | RUN  => run_exit p c s
  end.

(** [NextState(...)], per state. *)
Definition next_state (p : params) (c : csr) (s : state) (i : inputs)
  : fsm_state :=
  match fsm s with
  | IDLE => if start_re i then WAIT else IDLE
  | WAIT => if sink_valid i && negb (hit (sink i) =? 0) then RUN else WAIT
  | RUN  => if run_exit p c s then IDLE else RUN
  end.

Definition comb (p : params) (c : csr) (s : state) (i : inputs) : outputs :=
  Outputs (match fsm s with IDLE => true | _ => false end)
          (match fsm s with WAIT => true | _ => false end)
          (match fsm s with RUN => true | _ => false end)
          (match fsm s with IDLE => true | _ => writable p s end)
          (SyncFIFO.readable (mem s))
          (SyncFIFO.dout (mem s)).

Definition step (p : params) (c : csr) (s : state) (i : inputs) : state :=
  State (next_state p c s i)
        (SyncFIFO.step (mem_depth p) (mem s)
                       (mem_we s i) (data (sink i)) (mem_re p c s i)).

Definition run (p : params) (c : csr) (s : state) (tr : list inputs) : state :=
  fold_left (step p c) tr s.

(** The word is written into the FIFO in this cycle. *)
Definition writes (p : params) (s : state) (i : inputs) : bool :=
  mem_we s i && writable p s.

(** A word leaves the FIFO in this cycle. *)
Definition pops (p : params) (c : csr) (s : state) (i : inputs) : bool :=
  mem_re p c s i && SyncFIFO.readable (mem s).

(** The words written into the FIFO along a trace, in order. *)
Fixpoint written (p : params) (c : csr) (s : state) (tr : list inputs)
  : list Z :=
  match tr with
  | [] => []
  | i :: tr' =>
      (if writes p s i then [data (sink i)] else [])
        ++ written p c (step p c s i) tr'
  end.

(** The cycle does not present a word with a hit bit set. *)
Definition no_trigger (i : inputs) : bool :=
  negb (sink_valid i && negb (hit (sink i) =? 0)).

(** The same cycle with the host's strobes replaced. *)
Definition with_start (b : bool) (i : inputs) : inputs :=
  Inputs b (mem_ready_re i) (mem_ready_r i) (sink_valid i) (sink i).

Definition with_mem_ready (re r : bool) (i : inputs) : inputs :=
  Inputs (start_re i) re r (sink_valid i) (sink i).

(** Host and stream stimuli. *)
Definition quiet : inputs := Inputs false false false false (Payload 0 0).
Definition start : inputs := Inputs true false false false (Payload 0 0).
Definition word (d : Z) : inputs := Inputs false false false true (Payload d 0).
Definition trig (d : Z) : inputs := Inputs false false false true (Payload d 1).
Definition read : inputs := Inputs false true true false (Payload 0 0).

(** One word of [dw] bits holds [cd_ratio] samples of [dw/cd_ratio]
    bits, the first in the low bits (the frontend's stride converter
    packs them so). *)
Definition samples_of_word (p : params) (w : Z) : list Z :=
  let sw := dw p / Z.of_nat (cd_ratio p) in
  map (fun k => trunc sw (Z.shiftr w (Z.of_nat k * sw)))
      (seq 0 (cd_ratio p)).

Definition samples_held (p : params) (s : state) : list Z :=
  flat_map (samples_of_word p) (contents s).

End Storage.

(** ** Host readback *)

Module Host.

(** The host writes 1 to [mem_ready] on [n] consecutive cycles; the words
    it takes are those [mem_data] shows on the cycles [mem_valid] is set. *)
Fixpoint readback (p : Storage.params) (c : Storage.csr)
         (s : Storage.state) (n : nat) : list Z :=
  match n with
  | O => []
  | S n' =>
      let o := Storage.comb p c s Storage.read in
      (if Storage.mem_valid o then [Storage.mem_data o] else [])
        ++ readback p c (Storage.step p c s Storage.read) n'
  end.

(** A cycle in which the host neither starts a capture nor completes a
    [mem_ready] handshake. *)
Definition hands_off (i : Storage.inputs) : bool :=
  negb (Storage.start_re i)
  && negb (Storage.mem_ready_re i && Storage.mem_ready_r i).

End Host.

(** ** Order-preserving selection *)

(** [subseq a b]: [a] is [b] with some elements left out. *)
Inductive subseq {A : Type} : list A -> list A -> Prop :=
| subseq_nil : subseq [] []
| subseq_skip : forall x a b, subseq a b -> subseq a (x :: b)
| subseq_keep : forall x a b, subseq a b -> subseq (x :: a) (x :: b).

(** ** The sub-sampler's counter along a trace *)

Definition counter_after (value counter : Z) (tr : list SubSampler.inputs) : Z :=
  fold_left (SubSampler.step value) tr counter.

(** ** AnalyzerFrontend: trigger feeding the sub-sampler *)

(** [stream.Pipeline] connects each module's source to the next module's
    sink.  The part of the pipeline written in this repository is the
    link from [FrontendTrigger] to [FrontendSubSampler]: valid and payload
    go from the trigger's source to the sub-sampler's sink, and the
    sub-sampler's [sink.ready], which is the downstream ready, goes back
    to the trigger's source. *)
Module Frontend.

Record inputs : Type := Inputs {
  value_storage : Z;
  mask_storage  : Z;
  sink_valid    : bool;
  sink          : payload;
  source_ready  : bool
}.

Record state : Type := State {
  trigger : Trigger.state;
  counter : Z
}.

Definition reset : state := State Trigger.reset SubSampler.counter_reset.

(** What the trigger samples, given the ready its source receives. *)
Definition trigger_in (i : inputs) (ready : bool) : Trigger.inputs :=
  Trigger.Inputs (value_storage i) (mask_storage i)
                 (sink_valid i) (sink i) ready.

(** What the sub-sampler samples: the trigger's source. *)
Definition subsampler_in (s : state) (i : inputs) : SubSampler.inputs :=
  let t := Trigger.comb (trigger s) (trigger_in i (source_ready i)) in
  SubSampler.Inputs (Trigger.source_valid t) (Trigger.source t)
                    (source_ready i).

(** The ready the sub-sampler hands back to the trigger's source. *)
Definition link_ready (count : Z) (s : state) (i : inputs) : bool :=
  SubSampler.sink_ready (SubSampler.comb count (counter s) (subsampler_in s i)).

Definition step (dw count : Z) (s : state) (i : inputs) : state :=
  State (Trigger.step dw (trigger s) (trigger_in i (link_ready count s i)))
        (SubSampler.step count (counter s) (subsampler_in s i)).

(** Samples leaving the sub-sampler, in order. *)
Fixpoint emitted (dw count : Z) (s : state) (tr : list inputs) : list payload :=
  match tr with
  | [] => []
  | i :: tr' =>
      let o := SubSampler.comb count (counter s) (subsampler_in s i) in
      (if SubSampler.source_valid o && source_ready i
       then [SubSampler.source o] else [])
        ++ emitted dw count (step dw count s i) tr'
  end.

(** Words taken from upstream by the trigger, in order. *)
Fixpoint accepted (dw count : Z) (s : state) (tr : list inputs) : list Z :=
  match tr with
  | [] => []
  | i :: tr' =>
      let t := Trigger.comb (trigger s) (trigger_in i (link_ready count s i)) in
      (if sink_valid i && Trigger.sink_ready t then [data (sink i)] else [])
        ++ accepted dw count (step dw count s i) tr'
  end.

(** The CSRs present the configuration [v], [m] in this cycle. *)
Definition holds (dw v m : Z) (i : inputs) : Prop :=
  trunc (Trigger.csr_width dw) (value_storage i) = v
  /\ trunc (Trigger.csr_width dw) (mask_storage i) = m.

(** The trigger configuration has settled at [v], [m]: both synchroniser
    stages hold it and the CSRs keep presenting it. *)
Definition settled (dw v m : Z) (s : state) (tr : list inputs) : Prop :=
  Trigger.value_sync (trigger s) = MultiReg.Make v v
  /\ Trigger.mask_sync (trigger s) = MultiReg.Make m m
  /\ Forall (holds dw v m) tr.

(** A sample as the trigger tags it under configuration [v], [m]. *)
Definition tag (v m d : Z) : payload :=
  Payload d (if Z.land d m =? v then 1 else 0).

End Frontend.

(** ** Widths and the top level *)

Module Analyzer.

(** [int.bit_length()] *)
Definition bit_length (n : Z) : Z :=
  if n =? 0 then 0 else Z.log2 (Z.abs n) + 1.

(** [log2_int(n, need_pow2=False)] of the gateware library. *)
Definition log2_int (n : Z) : Z :=
  if n =? 0 then 0 else bit_length (n - 1).

(** [bits_for(n)] of the gateware library: the bits needed for [n]. *)
Definition bits_for (n : Z) : Z :=
  if 0 <? n then log2_int (n + 1) else log2_int (- n) + 1.

(** [ceil_pow2(v)]: [2**(bits_for(v-1))]. *)
Definition ceil_pow2 (v : Z) : Z := 2 ^ bits_for (v - 1).

(** A watched signal: its width [len(s)] and its current value. *)
Record signal : Type := Signal { width : nat; value : Z }.

(** [sum([len(s) for s in signals])] *)
Definition total_width (sigs : list signal) : Z :=
  fold_right (fun s acc => Z.of_nat (width s) + acc) 0 sigs.

(** [self.dw = ceil_pow2(sum(...))] *)
Definition dw (sigs : list signal) : Z := ceil_pow2 (total_width sigs).

(** [self.core_dw = self.dw*cd_ratio] *)
Definition core_dw (sigs : list signal) (cd_ratio : nat) : Z :=
  dw sigs * Z.of_nat cd_ratio.

(** [Cat(signals)]: concatenation, the first signal in the low bits. *)
Fixpoint Cat (sigs : list signal) : Z :=
  match sigs with
  | [] => 0
  | s :: r =>
      Z.lor (trunc (Z.of_nat (width s)) (value s))
            (Z.shiftl (Cat r) (Z.of_nat (width s)))
  end.

(** [self.frontend.sink.data.eq(Cat(self.signals))]: the sample word, a
    signal of [dw] bits. *)
Definition sample (sigs : list signal) : Z := trunc (dw sigs) (Cat sigs).

(** The bit position at which signal number [k] starts. *)
Definition offset_of (sigs : list signal) (k : nat) : Z :=
  total_width (firstn k sigs).

(** *** [export_csv] *)

Definition comma : Ascii.ascii := Ascii.ascii_of_nat 44.
Definition newline : Ascii.ascii := Ascii.ascii_of_nat 10.

(** [str(n)] for a non-negative integer. *)
Definition str (n : nat) : String.string :=
  DecimalString.NilZero.string_of_uint (Nat.to_uint n).

(** The arguments joined by commas. *)
Definition join (args : list String.string) : String.string :=
  String.concat (String.String comma String.EmptyString) args.

(** [format_line]: the arguments joined by commas, then a newline. *)
Definition format_line (args : list String.string) : String.string :=
  String.append (join args) (String.String newline String.EmptyString).

Definition s_config : String.string :=
  String.string_of_list_ascii
    (map Ascii.ascii_of_nat [99; 111; 110; 102; 105; 103])%nat.
Definition s_signal : String.string :=
  String.string_of_list_ascii
    (map Ascii.ascii_of_nat [115; 105; 103; 110; 97; 108])%nat.
Definition s_dw : String.string :=
  String.string_of_list_ascii (map Ascii.ascii_of_nat [100; 119])%nat.
Definition s_depth : String.string :=
  String.string_of_list_ascii
    (map Ascii.ascii_of_nat [100; 101; 112; 116; 104])%nat.
Definition s_cd_ratio : String.string :=
  String.string_of_list_ascii
    (map Ascii.ascii_of_nat [99; 100; 95; 114; 97; 116; 105; 111])%nat.

(** The fields of every line, in the order the lines are written: three
    configuration lines, then one line per signal.  A signal is given by
    the name [vns.get_name(s)] resolves to and by [len(s)]. *)
Definition rows (dw depth cd_ratio : nat) (sigs : list (String.string * nat))
  : list (list String.string) :=
  [s_config; s_dw; str dw]
    :: [s_config; s_depth; str depth]
    :: [s_config; s_cd_ratio; str cd_ratio]
    :: map (fun s => [s_signal; fst s; str (snd s)]) sigs.

(** The text handed to [write_to_file]. *)
Definition export_csv (dw depth cd_ratio : nat)
           (sigs : list (String.string * nat)) : String.string :=
  fold_left (fun r row => String.append r (format_line row))
            (rows dw depth cd_ratio sigs) String.EmptyString.

(** Reading the text back: cut a string at every [sep]. *)
Fixpoint split (sep : Ascii.ascii) (s : String.string) : list String.string :=
  match s with
  | String.EmptyString => [String.EmptyString]
  | String.String ch r =>
      if Ascii.eqb ch sep then String.EmptyString :: split sep r
      else match split sep r with
           | [] => [String.String ch String.EmptyString]
           | f :: fs => String.String ch f :: fs
           end
  end.

(** [ch] does not occur in [s]. *)
Fixpoint free_of (ch : Ascii.ascii) (s : String.string) : bool :=
  match s with
  | String.EmptyString => true
  | String.String x r => negb (Ascii.eqb x ch) && free_of ch r
  end.

End Analyzer.

(** * Facts about the storage FIFO *)

Section FifoFacts.

Import SyncFIFO.

Variable depth : nat.

Lemma fifo_level_contents (f : t) : level f = length (contents f).
Proof.
  unfold level, contents, inner_level.
  destruct (readable f); cbn [length app]; lia.
Qed.

(** One clock edge seen on the contents: a read removes the oldest word
    when the output register is valid, a write appends when the inner
    FIFO has room. *)
Lemma fifo_contents_step (f : t) (we : bool) (din : Z) (re : bool) :
  contents (step depth f we din re)
  = (if re && readable f then tl (contents f) else contents f)
      ++ (if we && writable depth f then [din] else []).
Proof.
  destruct f as [qq d r].
  unfold contents, step, inner_re, inner_readable, inner_level.
  cbn [q dout readable].
  destruct qq as [|x qq]; destruct r, re; cbn; reflexivity.
Qed.

Lemma fifo_level_step (f : t) (we : bool) (din : Z) (re : bool) :
  (level (step depth f we din re) + (if re && readable f then 1 else 0)
   = level f + (if we && writable depth f then 1 else 0))%nat.
Proof.
  rewrite !fifo_level_contents, fifo_contents_step, length_app.
  assert (H : readable f = true -> contents f <> []).
  { unfold contents. destruct (readable f); cbn; congruence. }
  destruct (re && readable f) eqn:E.
  - apply andb_prop in E. destruct E as [_ E]. specialize (H E).
    destruct (contents f); [congruence|].
    destruct (we && writable depth f); cbn [length tl]; lia.
  - destruct (we && writable depth f); cbn [length]; lia.
Qed.

Lemma fifo_wf_reset : wf depth reset.
Proof. unfold wf, reset, inner_level; cbn; lia. Qed.

Lemma fifo_wf_step (f : t) (we : bool) (din : Z) (re : bool) :
  wf depth f -> wf depth (step depth f we din re).
Proof.
  destruct f as [qq d r].
  unfold wf, step, inner_re, inner_readable, writable, inner_level.
  cbn [q dout readable]. intros [Hd H1].
  destruct (Nat.eqb_spec (length qq) depth) as [E|E];
    destruct qq as [|x qq]; destruct r, re, we;
    cbn [negb andb orb Nat.eqb length tl app] in *;
    rewrite ?length_app, ?app_nil_r; cbn [length] in *;
    split; intros; try discriminate; try lia;
    try (specialize (H1 eq_refl); lia).
Qed.

(** With two or more words held, the output register is valid. *)
Lemma fifo_wf_readable (f : t) :
  wf depth f -> (2 <= level f)%nat -> readable f = true.
Proof.
  unfold wf, level. intros [_ H] L.
  destruct (readable f); [reflexivity|]. specialize (H eq_refl). lia.
Qed.

Lemma fifo_level_bound (f : t) : wf depth f -> (level f <= depth + 1)%nat.
Proof. unfold wf, level. intros [H _]. destruct (readable f); lia. Qed.

Lemma fifo_writable_level (f : t) :
  wf depth f -> (level f < depth)%nat -> writable depth f = true.
Proof.
  unfold wf, level, writable. intros [H _] L.
  destruct (Nat.eqb_spec (inner_level f) depth); [|reflexivity].
  destruct (readable f); lia.
Qed.

Lemma fifo_writable_readable (f : t) :
  readable f = true -> (level f <= depth)%nat -> writable depth f = true.
Proof.
  unfold level, writable. intros -> L.
  destruct (Nat.eqb_spec (inner_level f) depth); [lia|reflexivity].
Qed.

End FifoFacts.

(** * List facts used for windows *)

Section Lastn.

Context {A : Type}.
Implicit Types l a b : list A.

Lemma lastn_length n l : length (lastn n l) = Nat.min n (length l).
Proof. unfold lastn. rewrite length_skipn. lia. Qed.

Lemma lastn_all n l : (length l <= n)%nat -> lastn n l = l.
Proof.
  unfold lastn. intros H.
  replace (length l - n)%nat with 0%nat by lia. reflexivity.
Qed.

Lemma lastn_app n a b :
  (length b <= n)%nat -> lastn n (a ++ b) = lastn (n - length b) a ++ b.
Proof.
  unfold lastn. intros H. rewrite length_app, skipn_app.
  replace (length a + length b - n - length a)%nat with 0%nat by lia.
  replace (length a + length b - n)%nat
    with (length a - (n - length b))%nat by lia.
  reflexivity.
Qed.

(** Sliding twice is sliding once over everything. *)
Lemma lastn_lastn_app n a b : lastn n (lastn n a ++ b) = lastn n (a ++ b).
Proof.
  unfold lastn. rewrite !length_app, length_skipn, !skipn_app, length_skipn.
  rewrite skipn_skipn.
  replace (length a - (length a - n) + length b - n
           - (length a - (length a - n)))%nat
    with (length a + length b - n - length a)%nat by lia.
  f_equal. f_equal. lia.
Qed.

Lemma tl_skipn n l : tl (skipn n l) = skipn (S n) l.
Proof.
  revert l. induction n as [|n IH]; intros l.
  - destruct l; reflexivity.
  - destruct l as [|x l]; [reflexivity|].
    change (tl (skipn n l) = skipn (S n) l). apply IH.
Qed.

Lemma tl_lastn n l : (S n <= length l)%nat -> tl (lastn (S n) l) = lastn n l.
Proof.
  unfold lastn. intros H. rewrite tl_skipn. f_equal. lia.
Qed.

Lemma tl_app_nonempty a b : a <> [] -> tl (a ++ b) = tl a ++ b.
Proof. destruct a; [congruence|reflexivity]. Qed.

End Lastn.

(** * Facts about the storage controller *)

Section StorageFacts.

Import Storage.

Variable p : params.
Variable c : csr.

Lemma contents_step (s : state) (i : inputs) :
  contents (step p c s i)
  = (if pops p c s i then tl (contents s) else contents s)
      ++ (if writes p s i then [data (sink i)] else []).
Proof. apply fifo_contents_step. Qed.

Lemma level_contents (s : state) : level s = length (contents s).
Proof. apply fifo_level_contents. Qed.

Lemma level_step (s : state) (i : inputs) :
  (level (step p c s i) + (if pops p c s i then 1 else 0)
   = level s + (if writes p s i then 1 else 0))%nat.
Proof. apply fifo_level_step. Qed.

Lemma wf_reset : wf p reset.
Proof. apply fifo_wf_reset. Qed.

Lemma wf_step (s : state) (i : inputs) : wf p s -> wf p (step p c s i).
Proof. apply fifo_wf_step. Qed.

Lemma run_app (s : state) (a b : list inputs) :
  run p c s (a ++ b) = run p c (run p c s a) b.
Proof. apply fold_left_app. Qed.

Lemma run_cons (s : state) (i : inputs) (tr : list inputs) :
  run p c s (i :: tr) = run p c (step p c s i) tr.
Proof. reflexivity. Qed.

Lemma wf_run (tr : list inputs) (s : state) : wf p s -> wf p (run p c s tr).
Proof.
  revert s. induction tr as [|i tr IH]; intros s H; [exact H|].
  rewrite run_cons. apply IH, wf_step, H.
Qed.

Lemma pops_nonempty (s : state) (i : inputs) :
  pops p c s i = true -> contents s <> [].
Proof.
  unfold pops, contents, SyncFIFO.contents. intros H.
  apply andb_prop in H. destruct H as [_ H]. rewrite H. discriminate.
Qed.

(** The FIFO keeps order: what it holds is always the most recent part
    of what it held plus what was written since. *)
Lemma contents_window (tr : list inputs) (s : state) :
  contents (run p c s tr)
  = lastn (level (run p c s tr)) (contents s ++ written p c s tr).
Proof.
  revert s. induction tr as [|i tr IH]; intros s.
  - cbn [run fold_left written]. rewrite app_nil_r, level_contents.
    symmetry. apply lastn_all. lia.
  - rewrite run_cons, IH. cbn [written]. rewrite contents_step.
    set (n := level (run p c (step p c s i) tr)).
    set (w := if writes p s i then [data (sink i)] else []).
    set (rest := written p c (step p c s i) tr).
    assert (Hn : (n <= length ((if pops p c s i then tl (contents s)
                                else contents s) ++ w ++ rest))%nat).
    { subst n. rewrite level_contents, IH, lastn_length.
      rewrite contents_step. fold w rest. rewrite <- app_assoc. lia. }
    rewrite <- !app_assoc.
    destruct (pops p c s i) eqn:E; [|reflexivity].
    apply pops_nonempty in E.
    destruct (contents s) as [|x r]; [congruence|].
    cbn [tl] in *. unfold lastn. cbn [app length].
    replace (S (length (r ++ w ++ rest)) - n)%nat
      with (S (length (r ++ w ++ rest) - n)) by lia.
    reflexivity.
Qed.

(** With no hit on the stream, WAIT is never left. *)
Lemma wait_stays (tr : list inputs) (s : state) :
  fsm s = WAIT -> forallb no_trigger tr = true ->
  fsm (run p c s tr) = WAIT.
Proof.
  revert s. induction tr as [|i tr IH]; intros s Hs Ht; [exact Hs|].
  cbn [forallb] in Ht. apply andb_prop in Ht. destruct Ht as [Hi Ht].
  rewrite run_cons. apply IH; [|exact Ht].
  unfold step, next_state. cbn [fsm]. rewrite Hs.
  unfold no_trigger in Hi. apply negb_true_iff in Hi. rewrite Hi.
  reflexivity.
Qed.

(** *** The control signals, state by state *)

Lemma idle_writes (s : state) (i : inputs) :
  fsm s = IDLE -> writes p s i = false.
Proof. unfold writes, mem_we. intros ->. reflexivity. Qed.

Lemma idle_pops (s : state) (i : inputs) :
  fsm s = IDLE ->
  pops p c s i
  = mem_ready_re i && mem_ready_r i && SyncFIFO.readable (mem s).
Proof. unfold pops, mem_re. intros ->. reflexivity. Qed.

Lemma wait_writes (s : state) (i : inputs) :
  fsm s = WAIT -> writes p s i = sink_valid i && writable p s.
Proof. unfold writes, mem_we. intros ->. reflexivity. Qed.

Lemma wait_pops (s : state) (i : inputs) :
  fsm s = WAIT ->
  pops p c s i
  = (offset_storage c <=? level s)%nat && SyncFIFO.readable (mem s).
Proof. unfold pops, mem_re. intros ->. reflexivity. Qed.

Lemma run_writes (s : state) (i : inputs) :
  fsm s = RUN -> writes p s i = sink_valid i && writable p s.
Proof. unfold writes, mem_we. intros ->. reflexivity. Qed.

Lemma run_pops (s : state) (i : inputs) :
  fsm s = RUN ->
  pops p c s i = run_exit p c s && SyncFIFO.readable (mem s).
Proof. unfold pops, mem_re. intros ->. reflexivity. Qed.

Lemma wf_readable (s : state) :
  wf p s -> (2 <= level s)%nat -> SyncFIFO.readable (mem s) = true.
Proof. apply fifo_wf_readable. Qed.

Lemma writable_below (s : state) :
  wf p s -> (level s < mem_depth p)%nat -> writable p s = true.
Proof. apply fifo_writable_level. Qed.

Lemma writable_readable (s : state) :
  SyncFIFO.readable (mem s) = true -> (level s <= mem_depth p)%nat ->
  writable p s = true.
Proof. apply fifo_writable_readable. Qed.

(** *** Bounds on the fill level *)

(** The level never passes [length] when the window is sane. *)
Lemma level_le_length_step (s : state) (i : inputs) :
  wf p s ->
  (offset_storage c <= length_storage c)%nat ->
  (2 <= length_storage c)%nat ->
  (level s <= length_storage c)%nat ->
  (level (step p c s i) <= length_storage c)%nat.
Proof.
  intros Hwf Hol H2 Hl.
  pose proof (level_step s i) as E.
  destruct (Nat.eq_dec (level s) (length_storage c)) as [Heq|Hne].
  2:{ destruct (pops p c s i), (writes p s i); lia. }
  assert (Hr : SyncFIFO.readable (mem s) = true)
    by (apply wf_readable; [exact Hwf | lia]).
  destruct (fsm s) eqn:F.
  - rewrite (idle_writes s i F) in E. destruct (pops p c s i); lia.
  - rewrite (wait_pops s i F), Hr in E.
    replace (offset_storage c <=? level s)%nat with true in E
      by (symmetry; apply Nat.leb_le; lia).
    cbn [andb] in E. destruct (writes p s i); lia.
  - rewrite (run_pops s i F), Hr in E. unfold run_exit in E.
    replace (length_storage c <=? level s)%nat with true in E
      by (symmetry; apply Nat.leb_le; lia).
    rewrite orb_true_r in E. cbn [andb] in E.
    destruct (writes p s i); lia.
Qed.

Lemma level_le_length_run (tr : list inputs) (s : state) :
  wf p s ->
  (offset_storage c <= length_storage c)%nat ->
  (2 <= length_storage c)%nat ->
  (level s <= length_storage c)%nat ->
  (level (run p c s tr) <= length_storage c)%nat.
Proof.
  intros Hwf Hol H2. revert s Hwf.
  induction tr as [|i tr IH]; intros s Hwf Hl; [exact Hl|].
  rewrite run_cons. apply IH; [apply wf_step, Hwf|].
  apply level_le_length_step; assumption.
Qed.

(** In WAIT the window never shrinks below [offset - 1]. *)
Lemma wait_level_ge_step (s : state) (i : inputs) :
  fsm s = WAIT ->
  (offset_storage c - 1 <= level s)%nat ->
  (offset_storage c - 1 <= level (step p c s i))%nat.
Proof.
  intros F Hl. pose proof (level_step s i) as E.
  rewrite (wait_pops s i F) in E.
  destruct (Nat.leb_spec (offset_storage c) (level s)) as [L|L];
    cbn [andb] in E;
    destruct (SyncFIFO.readable (mem s)), (writes p s i); lia.
Qed.

(** In WAIT the window never grows past [offset], for [offset >= 2]. *)
Lemma wait_level_le_step (s : state) (i : inputs) :
  fsm s = WAIT -> wf p s ->
  (2 <= offset_storage c)%nat ->
  (level s <= offset_storage c)%nat ->
  (level (step p c s i) <= offset_storage c)%nat.
Proof.
  intros F Hwf H2 Hl. pose proof (level_step s i) as E.
  rewrite (wait_pops s i F) in E.
  destruct (Nat.leb_spec (offset_storage c) (level s)) as [L|L];
    cbn [andb] in E.
  - rewrite (wf_readable s Hwf) in E by lia.
    destruct (writes p s i); lia.
  - destruct (writes p s i); lia.
Qed.

(** In WAIT with room for the window, every presented word is written. *)
Lemma wait_writable (s : state) :
  wf p s ->
  (2 <= offset_storage c <= mem_depth p)%nat ->
  (level s <= offset_storage c)%nat ->
  writable p s = true.
Proof.
  intros Hwf Ho Hl.
  destruct (Nat.eq_dec (level s) (mem_depth p)) as [E|E].
  - apply writable_readable; [apply wf_readable; [exact Hwf|lia] | lia].
  - apply writable_below; [exact Hwf | lia].
Qed.

(** One WAIT cycle with a word presented slides the window by one. *)
Lemma wait_slide_step (s : state) (i : inputs) :
  fsm s = WAIT -> wf p s ->
  (2 <= offset_storage c <= mem_depth p)%nat ->
  (level s <= offset_storage c)%nat ->
  sink_valid i = true ->
  contents (step p c s i)
  = lastn (offset_storage c) (contents s ++ [data (sink i)]).
Proof.
  intros F Hwf Ho Hl Hv.
  rewrite contents_step, (wait_writes s i F), (wait_pops s i F), Hv.
  rewrite (wait_writable s Hwf Ho Hl). cbn [andb].
  rewrite level_contents in *.
  destruct (Nat.leb_spec (offset_storage c) (length (contents s))) as [L|L].
  - rewrite (wf_readable s Hwf) by (rewrite level_contents; lia).
    cbn [andb].
    rewrite lastn_app by (cbn [length]; lia). cbn [length].
    f_equal. destruct (offset_storage c) as [|m]; [lia|].
    replace (S m - 1)%nat with m by lia.
    rewrite <- (tl_lastn m (contents s)) by lia.
    rewrite (lastn_all (S m) (contents s)) by lia. reflexivity.
  - cbn [andb]. symmetry. apply lastn_all. rewrite length_app. cbn. lia.
Qed.

End StorageFacts.

(** * Trigger matcher *)

Lemma trigger_transfers (dw : Z) (tr : list Trigger.inputs) (s : Trigger.state) :
  Trigger.emitted tr (Trigger.run dw s tr)
  = Trigger.accepted tr (Trigger.run dw s tr).
Proof.
  revert s. induction tr as [|i tr IH]; intros s; [reflexivity|].
  unfold Trigger.emitted, Trigger.accepted in *.
  cbn [Trigger.run combine filter fst snd Trigger.comb
       Trigger.source_valid Trigger.sink_ready].
  destruct (Trigger.sink_valid i && Trigger.source_ready i);
    cbn [map fst snd Trigger.source data]; rewrite IH; reflexivity.
Qed.

(** C6: for every input sample the trigger matcher emits the same sample,
    data unmodified, with hit = ((data & mask) == value) computed from the
    synchronised configuration (the CSR contents of two clock edges
    earlier); valid goes downstream and ready upstream unchanged, so the
    words handed downstream are exactly the words taken from upstream, in
    the same order, one output cycle per input cycle. *)
Theorem trigger_is_combinational_map :
  forall (dw : Z) (s : Trigger.state) (i i' : Trigger.inputs)
         (tr : list Trigger.inputs),
    let o := Trigger.comb s i in
    Trigger.source_valid o = Trigger.sink_valid i
    /\ Trigger.sink_ready o = Trigger.source_ready i
    /\ data (Trigger.source o) = data (Trigger.sink i)
    /\ hit (Trigger.source o)
       = (if Z.land (data (Trigger.sink i)) (Trigger.mask s) =? Trigger.value s
          then 1 else 0)
    /\ Trigger.value (Trigger.step dw (Trigger.step dw s i) i')
       = trunc (dw + 1) (Trigger.value_storage i)
    /\ Trigger.mask (Trigger.step dw (Trigger.step dw s i) i')
       = trunc (dw + 1) (Trigger.mask_storage i)
    /\ length (Trigger.run dw s tr) = length tr
    /\ Trigger.emitted tr (Trigger.run dw s tr)
       = Trigger.accepted tr (Trigger.run dw s tr).
Proof.
  intros dw s i i' tr o. subst o. repeat split.
  - clear i i'. revert s. induction tr as [|j tr IH]; intros s; [reflexivity|].
    cbn [Trigger.run length]. f_equal. apply IH.
  - apply trigger_transfers.
Qed.

Lemma land_outside_mask (d m v : Z) :
  Z.land v (Z.lnot m) <> 0 -> Z.land d m <> v.
Proof.
  intros H E. apply H. subst v.
  rewrite <- Z.land_assoc, Z.land_lnot_diag. apply Z.land_0_r.
Qed.

(** C9: when [value] has a bit set outside [mask], the hit flag is 0 for
    every sample, and a storage controller in WAIT that is fed such a
    sample stays in WAIT: no capture is triggered. *)
Theorem value_outside_mask_never_hits :
  forall (s : Trigger.state) (d : Z)
         (p : Storage.params) (c : Storage.csr)
         (st : Storage.state) (si : Storage.inputs),
    Z.land (Trigger.value s) (Z.lnot (Trigger.mask s)) <> 0 ->
    Storage.fsm st = WAIT ->
    hit (Storage.sink si) = Trigger.match_hit s d ->
    Trigger.match_hit s d = 0
    /\ Storage.fsm (Storage.step p c st si) = WAIT.
Proof.
  intros s d p c st si H F Hh.
  assert (E : Trigger.match_hit s d = 0).
  { unfold Trigger.match_hit.
    destruct (Z.eqb_spec (Z.land d (Trigger.mask s)) (Trigger.value s)) as [E|E];
      [|reflexivity].
    exfalso. exact (land_outside_mask _ _ _ H E). }
  split; [exact E|].
  unfold Storage.step, Storage.next_state. cbn [Storage.fsm].
  rewrite F, Hh, E. cbn. rewrite andb_false_r. reflexivity.
Qed.

Lemma value_outside_mask_never_hits_witness :
  Trigger.match_hit (Trigger.State (MultiReg.Make 0 2) (MultiReg.Make 0 1)) 3 = 0
  /\ Storage.fsm
       (Storage.step (Storage.Params 8 8 1) (Storage.Csr 4 2)
          (Storage.State WAIT SyncFIFO.reset)
          (Storage.Inputs false false false true (Payload 3 0))) = WAIT.
Proof.
  apply (value_outside_mask_never_hits
           (Trigger.State (MultiReg.Make 0 2) (MultiReg.Make 0 1)) 3
           (Storage.Params 8 8 1) (Storage.Csr 4 2)
           (Storage.State WAIT SyncFIFO.reset)
           (Storage.Inputs false false false true (Payload 3 0))).
  - vm_compute. discriminate.
  - reflexivity.
  - reflexivity.
Defined.

(** * Sub-sampler *)

Section Every.

Context {A : Type}.
Variable n : nat.

Lemma every_nth (l : list A) :
  forall j m d, nth m (every n j l) d = nth (m * (n + 1) + j) l d.
Proof.
  induction l as [|x t IH]; intros j m d.
  - cbn [every]. destruct m, (_ + j)%nat; reflexivity.
  - destruct j as [|j]; cbn [every].
    + destruct m as [|m]; [reflexivity|].
      cbn [nth]. rewrite IH.
      replace (S m * (n + 1) + 0)%nat with (S (m * (n + 1) + n)) by lia.
      reflexivity.
    + rewrite IH.
      replace (m * (n + 1) + S j)%nat with (S (m * (n + 1) + j)) by lia.
      reflexivity.
Qed.

Lemma every_length_bounds (l : list A) :
  forall j, (j <= n)%nat ->
    (length (every n j l) * (n + 1) + j <= length l + n
     /\ length l + n < (length (every n j l) + 1) * (n + 1) + j)%nat.
Proof.
  induction l as [|x t IH]; intros j Hj.
  - cbn [every length]. lia.
  - destruct j as [|j]; cbn [every length].
    + specialize (IH n (le_n n)). lia.
    + specialize (IH j ltac:(lia)). lia.
Qed.

Lemma every_length (l : list A) :
  length (every n n l) = (length l / (n + 1))%nat.
Proof.
  destruct (every_length_bounds l n (le_n n)) as [H1 H2].
  apply Nat.div_unique
    with (r := (length l - (n + 1) * length (every n n l))%nat); lia.
Qed.

End Every.

Section SubSamplerFacts.

Import SubSampler.

Variable k : Z.
Hypothesis k_range : 0 <= k < 2 ^ 16.

(** From counter [cnt], the sub-sampler skips [k - cnt] accepted samples,
    hands the next one on, and then one after every [k] skipped. *)
Lemma emitted_every (tr : list inputs) :
  forall cnt, 0 <= cnt <= k ->
    valid_when_due k cnt tr = true ->
    emitted k cnt tr
    = every (Z.to_nat k) (Z.to_nat (k - cnt)) (accepted k cnt tr).
Proof.
  induction tr as [|i tr IH]; intros cnt Hc Hv; [reflexivity|].
  cbn [emitted accepted valid_when_due comb source_valid sink_ready source] in *.
  apply andb_prop in Hv. destruct Hv as [Hd Hv].
  unfold step in *. unfold done in *.
  destruct (source_ready i) eqn:R.
  - destruct (Z.eqb_spec cnt k) as [E|E].
    + cbn [andb implb] in Hd. rewrite Hd. cbn [andb app].
      subst cnt. replace (k - k) with 0 by lia.
      cbn [Z.to_nat every]. f_equal.
      rewrite (IH 0) by (try lia; exact Hv).
      replace (k - 0) with k by lia. reflexivity.
    + rewrite andb_false_r. cbn [app].
      destruct (sink_valid i) eqn:V; cbn [andb app].
      * assert (T : trunc 16 (cnt + 1) = cnt + 1)
          by (unfold trunc; apply Z.mod_small; lia).
        rewrite T in *.
        rewrite (IH (cnt + 1)) by (try lia; exact Hv).
        replace (Z.to_nat (k - cnt)) with (S (Z.to_nat (k - (cnt + 1))))
          by lia.
        reflexivity.
      * apply IH; assumption.
  - rewrite !andb_false_r. cbn [app]. apply IH; assumption.
Qed.

End SubSamplerFacts.

Lemma passthrough_counter (tr : list SubSampler.inputs) :
  map SubSampler.source_valid (SubSampler.run 0 0 tr)
  = map SubSampler.sink_valid tr.
Proof.
  induction tr as [|i tr IH]; [reflexivity|].
  cbn [SubSampler.run map SubSampler.comb SubSampler.source_valid].
  replace (SubSampler.step 0 0 i) with 0
    by (unfold SubSampler.step; destruct (SubSampler.source_ready i); reflexivity).
  rewrite IH. unfold SubSampler.done. cbn. rewrite andb_true_r. reflexivity.
Qed.

(** C5 (as amended): from reset with decimation count [k], and provided
    the input is valid on every cycle on which the counter has reached [k]
    and downstream is ready, the sub-sampler hands on exactly one of every
    [k+1] accepted input samples, in order: the [m]-th output is accepted
    sample number [m*(k+1)+k], and there are [n / (k+1)] outputs for [n]
    accepted samples.  With [k = 0] output-valid equals input-valid on
    every cycle.  With [k = 3] and inputs tagged 0..9 the outputs are the
    samples tagged 3 and 7. *)
Theorem subsampler_decimates :
  forall (k : Z) (tr : list SubSampler.inputs),
    0 <= k < 2 ^ 16 ->
    SubSampler.valid_when_due k SubSampler.counter_reset tr = true ->
    let a := SubSampler.accepted k SubSampler.counter_reset tr in
    let e := SubSampler.emitted k SubSampler.counter_reset tr in
    length e = (length a / (Z.to_nat k + 1))%nat
    /\ (forall m d, nth m e d = nth (m * (Z.to_nat k + 1) + Z.to_nat k) a d)
    /\ map SubSampler.source_valid (SubSampler.run 0 SubSampler.counter_reset tr)
       = map SubSampler.sink_valid tr
    /\ map data (SubSampler.emitted 3 SubSampler.counter_reset
                   (map SubSampler.tick [0; 1; 2; 3; 4; 5; 6; 7; 8; 9]))
       = [3; 7].
Proof.
  intros k tr Hk Hv a e.
  assert (E : e = every (Z.to_nat k) (Z.to_nat k) a).
  { subst a e. unfold SubSampler.counter_reset in *.
    rewrite (emitted_every k Hk tr 0) by (try lia; exact Hv).
    replace (k - 0) with k by lia. reflexivity. }
  repeat split.
  - rewrite E. apply every_length.
  - intros m d. rewrite E. apply every_nth.
  - apply passthrough_counter.
Qed.

Lemma subsampler_decimates_witness :
  let gap := SubSampler.Inputs false (Payload 0 0) true in
  let stall := SubSampler.Inputs true (Payload 11 0) false in
  let tr := [gap; SubSampler.tick 10; stall; SubSampler.tick 11; gap;
             SubSampler.tick 12; SubSampler.tick 13] in
  map data (SubSampler.accepted 1 0 tr) = [10; 11; 12; 13]
  /\ map data (SubSampler.emitted 1 0 tr) = [11; 13]
  /\ length (SubSampler.emitted 1 0 tr)
     = (length (SubSampler.accepted 1 0 tr) / 2)%nat.
Proof.
  intros gap stall tr.
  split; [reflexivity|]. split; [reflexivity|].
  apply (subsampler_decimates 1 tr).
  - split; [lia | reflexivity].
  - vm_compute. reflexivity.
Defined.

(** C5, counterexample: with [k = 1] and an input that is valid only every
    other cycle, four samples are accepted and none is handed on, where
    the specification promises one for every two. *)
Lemma subsampler_gap_counterexample :
  let gap := SubSampler.Inputs false (Payload 0 0) true in
  let tr := [SubSampler.tick 10; gap; SubSampler.tick 11; gap;
             SubSampler.tick 12; gap; SubSampler.tick 13; gap] in
  map data (SubSampler.accepted 1 SubSampler.counter_reset tr) = [10; 11; 12; 13]
  /\ SubSampler.emitted 1 SubSampler.counter_reset tr = []
  /\ length (SubSampler.emitted 1 SubSampler.counter_reset tr)
     <> (length (SubSampler.accepted 1 SubSampler.counter_reset tr) / (1 + 1))%nat.
Proof.
  cbv zeta. split; [reflexivity|]. split; [reflexivity|].
  vm_compute. discriminate.
Qed.

(** * Capture controller: host strobes *)

(** C10: a start pulse is acted upon only in IDLE (where it leads to
    WAIT); in WAIT and in RUN the next state of the controller and of the
    buffer, and every output of the cycle, are the same with and without
    the pulse. *)
Theorem start_ignored_outside_idle :
  forall (p : Storage.params) (c : Storage.csr)
         (s : Storage.state) (i : Storage.inputs),
    Storage.fsm s <> IDLE ->
    Storage.step p c s (Storage.with_start true i)
    = Storage.step p c s (Storage.with_start false i)
    /\ Storage.comb p c s (Storage.with_start true i)
       = Storage.comb p c s (Storage.with_start false i)
    /\ Storage.fsm (Storage.step p c (Storage.State IDLE (Storage.mem s))
                      (Storage.with_start true i)) = WAIT
    /\ Storage.fsm (Storage.step p c (Storage.State IDLE (Storage.mem s))
                      (Storage.with_start false i)) = IDLE.
Proof.
  intros p c [f m] i H. cbn [Storage.fsm] in H.
  destruct f; [congruence| |]; repeat split.
Qed.

Lemma start_ignored_outside_idle_witness :
  let p := Storage.Params 8 8 1 in
  let c := Storage.Csr 4 2 in
  let s := Storage.run p c Storage.reset
             [Storage.start; Storage.word 10; Storage.word 11] in
  Storage.fsm s = WAIT
  /\ Storage.step p c s (Storage.with_start true (Storage.word 12))
     = Storage.step p c s (Storage.with_start false (Storage.word 12)).
Proof.
  intros p c s. split; [reflexivity|].
  apply (start_ignored_outside_idle p c s (Storage.word 12)).
  vm_compute. discriminate.
Defined.

(** * Capture controller: readback *)

(** C7 (as amended): the host handshake pops the buffer only in IDLE.
    There, while [mem_valid] is set, [mem_data] shows the oldest word, and
    a write of 1 to [mem_ready] removes exactly that word; without the
    handshake an IDLE cycle leaves the contents unchanged.  In WAIT and in
    RUN the host's [mem_ready] has no effect at all: the read side of the
    buffer is driven by the controller. *)
Theorem readback_pops_only_in_idle :
  forall (p : Storage.params) (c : Storage.csr)
         (s : Storage.state) (i : Storage.inputs),
    let o := Storage.comb p c s i in
    let handshake :=
      Storage.mem_valid o && Storage.mem_ready_re i && Storage.mem_ready_r i in
    (Storage.fsm s = IDLE -> handshake = true ->
       Storage.contents s
       = Storage.mem_data o :: Storage.contents (Storage.step p c s i))
    /\ (Storage.fsm s = IDLE -> handshake = false ->
          Storage.contents (Storage.step p c s i) = Storage.contents s)
    /\ (Storage.fsm s <> IDLE ->
          forall re r,
            Storage.step p c s (Storage.with_mem_ready re r i)
            = Storage.step p c s i).
Proof.
  intros p c s i o handshake. subst o handshake.
  cbn [Storage.comb Storage.mem_valid Storage.mem_data].
  split; [|split].
  - intros F H. rewrite contents_step, (idle_writes p s i F), app_nil_r.
    rewrite (idle_pops p c s i F).
    replace (Storage.mem_ready_re i && Storage.mem_ready_r i
             && SyncFIFO.readable (Storage.mem s)) with true
      by (rewrite <- H; destruct (SyncFIFO.readable (Storage.mem s)),
            (Storage.mem_ready_re i), (Storage.mem_ready_r i); reflexivity).
    unfold Storage.contents, SyncFIFO.contents.
    destruct (SyncFIFO.readable (Storage.mem s)); [reflexivity|discriminate].
  - intros F H. rewrite contents_step, (idle_writes p s i F), app_nil_r.
    rewrite (idle_pops p c s i F).
    replace (Storage.mem_ready_re i && Storage.mem_ready_r i
             && SyncFIFO.readable (Storage.mem s)) with false
      by (rewrite <- H; destruct (SyncFIFO.readable (Storage.mem s)),
            (Storage.mem_ready_re i), (Storage.mem_ready_r i); reflexivity).
    reflexivity.
  - intros F re r. destruct s as [f m]. cbn [Storage.fsm] in F.
    destruct f; [congruence| |]; reflexivity.
Qed.

Lemma readback_pops_only_in_idle_witness :
  let p := Storage.Params 8 8 1 in
  let c := Storage.Csr 4 2 in
  let s := Storage.run p c Storage.reset
             ([Storage.start] ++ map Storage.word [10; 11; 12; 13]
              ++ [Storage.trig 14] ++ map Storage.word [15; 16; 17]) in
  Storage.fsm s = IDLE
  /\ Storage.contents s = [14; 15; 16; 17]
  /\ Storage.contents s
     = 14 :: Storage.contents (Storage.step p c s Storage.read).
Proof.
  intros p c s. split; [reflexivity|]. split; [reflexivity|].
  apply (readback_pops_only_in_idle p c s Storage.read); reflexivity.
Defined.

(** C7, counterexample: in WAIT with [mem_valid] set, a [mem_ready] pulse
    pops nothing (the fill level is below [offset]); and with no pulse at
    all the controller drains a word once the level has reached
    [offset]. *)
Lemma readback_in_wait_counterexample :
  let p := Storage.Params 8 8 1 in
  let c := Storage.Csr 4 2 in
  let s1 := Storage.run p c Storage.reset
              [Storage.start; Storage.word 10; Storage.quiet] in
  let s2 := Storage.run p c Storage.reset
              [Storage.start; Storage.word 10; Storage.word 11] in
  (Storage.fsm s1 = WAIT
   /\ Storage.mem_valid (Storage.comb p c s1 Storage.read) = true
   /\ Storage.mem_ready_re Storage.read && Storage.mem_ready_r Storage.read
      = true
   /\ Storage.contents s1 = [10]
   /\ Storage.contents (Storage.step p c s1 Storage.read) = [10]
   /\ ~ (exists x, Storage.contents s1
                   = x :: Storage.contents (Storage.step p c s1 Storage.read)))
  /\ (Storage.fsm s2 = WAIT
      /\ Storage.mem_ready_re Storage.quiet = false
      /\ Storage.contents s2 = [10; 11]
      /\ Storage.contents (Storage.step p c s2 Storage.quiet) = [11]
      /\ Storage.contents (Storage.step p c s2 Storage.quiet)
         <> Storage.contents s2).
Proof.
  cbv zeta. repeat split.
  - intros [x H]. vm_compute in H. discriminate.
  - vm_compute. discriminate.
Qed.

(** * Capture controller: leaving RUN *)

(** C1 (as amended): in RUN the controller evaluates, every cycle, whether
    the buffer cannot accept a word or its level has reached [length].
    While neither holds it stays in RUN, pops nothing and appends the
    presented word.  On the first cycle one of them holds it goes to IDLE
    and asserts the buffer's read enable for that cycle, which removes the
    oldest word if the output register holds one; the word presented in
    that same cycle is still written when the buffer can accept it.  So a
    capture that reached level [length] (at least 2) returns to IDLE with
    [length - 1] words when no word was written on the exit cycle, and
    with [length] words when one was. *)
Theorem run_exit_pops_while_writing :
  forall (p : Storage.params) (c : Storage.csr)
         (s : Storage.state) (i : Storage.inputs),
    Storage.fsm s = RUN ->
    let s' := Storage.step p c s i in
    let w := if Storage.sink_valid i && Storage.writable p s
             then [data (Storage.sink i)] else [] in
    (Storage.run_exit p c s = false ->
       Storage.fsm s' = RUN
       /\ Storage.contents s' = Storage.contents s ++ w)
    /\ (Storage.run_exit p c s = true ->
          Storage.fsm s' = IDLE
          /\ Storage.contents s'
             = (if SyncFIFO.readable (Storage.mem s)
                then tl (Storage.contents s) else Storage.contents s) ++ w)
    /\ (Storage.wf p s ->
        (2 <= Storage.length_storage c)%nat ->
        Storage.level s = Storage.length_storage c ->
          Storage.fsm s' = IDLE
          /\ Storage.level s'
             = (Storage.length_storage c - 1 + length w)%nat).
Proof.
  intros p c s i F s' w. subst s' w.
  rewrite <- (run_writes p s i F).
  split; [|split].
  - intros E. split.
    + unfold Storage.step, Storage.next_state. cbn [Storage.fsm].
      rewrite F, E. reflexivity.
    + rewrite contents_step, (run_pops p c s i F), E. reflexivity.
  - intros E. split.
    + unfold Storage.step, Storage.next_state. cbn [Storage.fsm].
      rewrite F, E. reflexivity.
    + rewrite contents_step, (run_pops p c s i F), E. reflexivity.
  - intros Hwf H2 Hl.
    assert (E : Storage.run_exit p c s = true).
    { unfold Storage.run_exit. rewrite Hl, Nat.leb_refl. apply orb_true_r. }
    split.
    + unfold Storage.step, Storage.next_state. cbn [Storage.fsm].
      rewrite F, E. reflexivity.
    + pose proof (level_step p c s i) as L.
      rewrite (run_pops p c s i F), E in L.
      rewrite (wf_readable p s Hwf) in L by lia. cbn [andb] in L.
      destruct (Storage.writes p s i); cbn [length]; lia.
Qed.

Lemma run_exit_pops_while_writing_witness :
  let p := Storage.Params 8 8 1 in
  let c := Storage.Csr 4 2 in
  let s := Storage.run p c Storage.reset
             ([Storage.start] ++ map Storage.word [10; 11; 12; 13]
              ++ [Storage.trig 14] ++ map Storage.word [15; 16]) in
  Storage.fsm s = RUN /\ Storage.level s = 4%nat
  /\ Storage.level (Storage.step p c s Storage.quiet) = 3%nat
  /\ Storage.level (Storage.step p c s (Storage.word 17)) = 4%nat.
Proof.
  intros p c s. split; [reflexivity|]. split; [reflexivity|].
  pose proof (run_exit_pops_while_writing p c s Storage.quiet eq_refl) as Hq.
  pose proof (run_exit_pops_while_writing p c s (Storage.word 17) eq_refl) as Hw.
  cbv zeta in Hq, Hw.
  destruct Hq as (_ & _ & Hq). destruct Hw as (_ & _ & Hw).
  split.
  - apply Hq; [vm_compute; split; intros; lia | vm_compute; lia | reflexivity].
  - apply Hw; [vm_compute; split; intros; lia | vm_compute; lia | reflexivity].
Defined.

(** C1, counterexample: [length = 4], [offset = 2], one word per cycle.
    The level reaches 4 in RUN; the exit cycle pops one word and writes
    the incoming one, so IDLE is entered with 4 words, not with 3. *)
Lemma run_exit_level_counterexample :
  let p := Storage.Params 8 8 1 in
  let c := Storage.Csr 4 2 in
  let s := Storage.run p c Storage.reset
             ([Storage.start] ++ map Storage.word [10; 11; 12; 13]
              ++ [Storage.trig 14] ++ map Storage.word [15; 16]) in
  let s' := Storage.step p c s (Storage.word 17) in
  Storage.fsm s = RUN
  /\ Storage.level s = Storage.length_storage c
  /\ Storage.fsm s' = IDLE
  /\ Storage.contents s' = [14; 15; 16; 17]
  /\ Storage.level s' <> (Storage.length_storage c - 1)%nat.
Proof.
  cbv zeta. repeat split. vm_compute. discriminate.
Qed.

(** * Capture controller: entering RUN *)

Section FifoRoom.

Import SyncFIFO.

Variable depth : nat.
Hypothesis depth_ge_2 : (2 <= depth)%nat.

(** A cycle with the read enable asserted leaves room for a write. *)
Lemma fifo_room_after_read (f : t) (we : bool) (din : Z) :
  wf depth f -> (inner_level (step depth f we din true) < depth)%nat.
Proof.
  destruct f as [qq d r].
  unfold wf, step, inner_re, inner_readable, writable, inner_level.
  cbn [q dout readable]. intros [Hd _]. rewrite orb_true_r, andb_true_r.
  destruct (Nat.eqb_spec (length qq) depth) as [E|E];
    destruct qq as [|x qq]; destruct we;
    cbn [negb andb Nat.eqb length tl app] in *;
    rewrite ?length_app, ?app_nil_r; cbn [length] in *; lia.
Qed.

(** So does a cycle that starts with the level below the depth. *)
Lemma fifo_room_below (f : t) (we : bool) (din : Z) (re : bool) :
  wf depth f -> (level f < depth)%nat ->
  (inner_level (step depth f we din re) < depth)%nat.
Proof.
  destruct f as [qq d r].
  unfold wf, level, step, inner_re, inner_readable, writable, inner_level.
  cbn [q dout readable]. intros [Hd H1] L.
  destruct (Nat.eqb_spec (length qq) depth) as [E|E];
    destruct qq as [|x qq]; destruct r, re, we;
    cbn [negb andb orb Nat.eqb length tl app] in *;
    rewrite ?length_app, ?app_nil_r; cbn [length] in *;
    try lia; specialize (H1 eq_refl); lia.
Qed.

(** A cycle without a write does not fill the inner FIFO. *)
Lemma fifo_room_no_write (f : t) (din : Z) (re : bool) :
  (inner_level (step depth f false din re) <= inner_level f)%nat.
Proof.
  clear depth_ge_2. destruct f as [qq d r].
  unfold step, inner_re, inner_readable, inner_level.
  cbn [q dout readable andb]. rewrite app_nil_r.
  destruct qq as [|x qq]; destruct r, re; cbn; lia.
Qed.

End FifoRoom.

Section WaitRoom.

Import Storage.

Variable p : params.
Variable c : csr.
Hypothesis depth_ge_2 : (2 <= mem_depth p)%nat.
Hypothesis offset_fits : (offset_storage c <= mem_depth p)%nat.

Lemma has_room_step (s : state) (i : inputs) :
  has_room p s -> has_room p (step p c s i).
Proof.
  intros [Hwf Hr]. split; [apply wf_step, Hwf|].
  unfold step, next_state, mem_we, mem_re. cbn [fsm mem].
  destruct (fsm s) eqn:F.
  - intros _. eapply Nat.le_lt_trans; [apply fifo_room_no_write|].
    apply Hr. congruence.
  - destruct (sink_valid i && negb (hit (sink i) =? 0));
      [congruence|]. intros _.
    destruct (Nat.leb_spec (offset_storage c) (level s)) as [L|L].
    + apply fifo_room_after_read; assumption.
    + apply fifo_room_below;
        [exact depth_ge_2 | exact Hwf | unfold level in L; lia].
  - destruct (run_exit p c s); [|congruence]. intros _.
    apply fifo_room_after_read; assumption.
Qed.

Lemma has_room_run (tr : list inputs) (s : state) :
  has_room p s -> has_room p (run p c s tr).
Proof.
  revert s. induction tr as [|i tr IH]; intros s H; [exact H|].
  rewrite run_cons. apply IH, has_room_step, H.
Qed.

Lemma has_room_reset : has_room p reset.
Proof.
  split; [apply wf_reset|]. intros _. cbn. lia.
Qed.

Lemma wait_reachable_writable (tr : list inputs) :
  fsm (run p c reset tr) = WAIT -> writable p (run p c reset tr) = true.
Proof.
  intros F. destruct (has_room_run tr reset has_room_reset) as [_ H].
  unfold writable, SyncFIFO.writable.
  destruct (Nat.eqb_spec (SyncFIFO.inner_level (mem (run p c reset tr)))
                         (mem_depth p)) as [E|E]; [|reflexivity].
  assert (fsm (run p c reset tr) <> RUN) by congruence.
  specialize (H H0). lia.
Qed.

End WaitRoom.

(** C4 (as amended): in WAIT the controller is in RUN on the next cycle
    exactly when the current cycle presents a word with a hit bit set,
    whether or not the buffer accepts that word; otherwise it stays in
    WAIT.  Whenever the buffer can accept a word -- which from reset is
    always the case in WAIT when [offset] does not exceed the FIFO depth
    [depth//cd_ratio] and that depth is at least 2 -- entering RUN
    coincides with writing a hit word. *)
Theorem wait_to_run_on_hit :
  forall (p : Storage.params) (c : Storage.csr)
         (tr : list Storage.inputs) (i : Storage.inputs),
    let s := Storage.run p c Storage.reset tr in
    Storage.fsm s = WAIT ->
    (Storage.fsm (Storage.step p c s i) = RUN
     <-> Storage.sink_valid i = true /\ hit (Storage.sink i) <> 0)
    /\ (Storage.fsm (Storage.step p c s i) = RUN
        \/ Storage.fsm (Storage.step p c s i) = WAIT)
    /\ ((2 <= Storage.mem_depth p)%nat ->
        (Storage.offset_storage c <= Storage.mem_depth p)%nat ->
        Storage.writable p s = true
        /\ (Storage.fsm (Storage.step p c s i) = RUN
            <-> Storage.writes p s i = true /\ hit (Storage.sink i) <> 0)).
Proof.
  intros p c tr i s F.
  assert (N : Storage.fsm (Storage.step p c s i)
              = if Storage.sink_valid i && negb (hit (Storage.sink i) =? 0)
                then RUN else WAIT).
  { unfold Storage.step, Storage.next_state. cbn [Storage.fsm].
    rewrite F. reflexivity. }
  assert (A : Storage.fsm (Storage.step p c s i) = RUN
              <-> Storage.sink_valid i = true /\ hit (Storage.sink i) <> 0).
  { rewrite N. destruct (Storage.sink_valid i);
      destruct (Z.eqb_spec (hit (Storage.sink i)) 0) as [E|E]; cbn;
      split; try congruence; try tauto; intros [? ?]; congruence. }
  split; [exact A|]. split.
  - rewrite N. destruct (_ && _); auto.
  - intros H2 Ho.
    assert (W : Storage.writable p s = true)
      by (apply wait_reachable_writable; assumption).
    split; [exact W|].
    rewrite (wait_writes p s i F), W, andb_true_r. exact A.
Qed.

Lemma wait_to_run_on_hit_witness :
  let p := Storage.Params 8 8 1 in
  let c := Storage.Csr 4 2 in
  let tr := [Storage.start; Storage.word 10; Storage.word 11] in
  let s := Storage.run p c Storage.reset tr in
  Storage.fsm s = WAIT
  /\ (Storage.fsm (Storage.step p c s (Storage.trig 12)) = RUN
      <-> Storage.sink_valid (Storage.trig 12) = true
          /\ hit (Storage.sink (Storage.trig 12)) <> 0)
  /\ Storage.writable p s = true.
Proof.
  intros p c tr s. split; [reflexivity|].
  destruct (wait_to_run_on_hit p c tr (Storage.trig 12) eq_refl)
    as (A & _ & B).
  split; [exact A|].
  destruct B as [W _].
  - unfold p, Storage.mem_depth. cbn. lia.
  - unfold p, c, Storage.mem_depth. cbn. lia.
  - exact W.
Defined.

(** C4, counterexample: [depth = 4] with [cd_ratio = 2] gives a FIFO of 2
    words; with [offset = 3] the buffer is full in WAIT.  A hit word
    presented then is not written (the sink is not ready), yet the
    controller is in RUN on the next cycle; RUN exits at once because the
    buffer cannot accept a word, and the capture ends without any hit
    word in the buffer. *)
Lemma run_entered_without_write_counterexample :
  let p := Storage.Params 16 4 2 in
  let c := Storage.Csr 4 3 in
  let tr := [Storage.start; Storage.word 10; Storage.word 11;
             Storage.word 12] in
  let s := Storage.run p c Storage.reset tr in
  let s1 := Storage.step p c s (Storage.trig 14) in
  Storage.fsm s = WAIT
  /\ Storage.contents s = [10; 11; 12]
  /\ Storage.sink_ready (Storage.comb p c s (Storage.trig 14)) = false
  /\ Storage.writes p s (Storage.trig 14) = false
  /\ Storage.fsm s1 = RUN
  /\ Storage.written p c Storage.reset (tr ++ [Storage.trig 14]) = [10; 11; 12]
  /\ ~ (Storage.fsm s1 = RUN -> Storage.writes p s (Storage.trig 14) = true).
Proof.
  cbv zeta. repeat split. intros H. specialize (H eq_refl). discriminate.
Qed.

(** * Capture controller: the window *)

Section Window.

Import Storage.

Variable p : params.
Variable c : csr.

Lemma wait_step_stays (s : state) (i : inputs) :
  fsm s = WAIT -> no_trigger i = true -> fsm (step p c s i) = WAIT.
Proof.
  intros F H. apply (wait_stays p c [i] s F). cbn. rewrite H. reflexivity.
Qed.

Lemma wait_level_ge_run (tr : list inputs) (s : state) :
  fsm s = WAIT -> forallb no_trigger tr = true ->
  (offset_storage c - 1 <= level s)%nat ->
  (offset_storage c - 1 <= level (run p c s tr))%nat.
Proof.
  revert s. induction tr as [|i tr IH]; intros s F Ht Hl; [exact Hl|].
  cbn [forallb] in Ht. apply andb_prop in Ht. destruct Ht as [Hi Ht].
  rewrite run_cons. apply IH; [apply wait_step_stays; assumption | exact Ht|].
  apply wait_level_ge_step; assumption.
Qed.

(** With a word written every cycle the window does not shrink at all. *)
Lemma wait_level_keep_step (s : state) (i : inputs) :
  fsm s = WAIT ->
  (offset_storage c <= mem_depth p)%nat ->
  sink_valid i = true ->
  (offset_storage c <= level s)%nat ->
  (offset_storage c <= level (step p c s i))%nat.
Proof.
  intros F Hd Hv Hl. pose proof (level_step p c s i) as E.
  rewrite (wait_pops p c s i F), (wait_writes p s i F), Hv in E.
  destruct (SyncFIFO.readable (mem s)) eqn:R.
  - destruct (Nat.eq_dec (level s) (offset_storage c)) as [Q|Q].
    + rewrite (writable_readable p s R) in E by lia.
      destruct (offset_storage c <=? level s)%nat; cbn [andb] in E; lia.
    + destruct (offset_storage c <=? level s)%nat, (writable p s);
        cbn [andb] in E; lia.
  - rewrite andb_false_r in E. destruct (true && writable p s); lia.
Qed.

Lemma wait_level_keep_run (tr : list inputs) (s : state) :
  fsm s = WAIT -> forallb no_trigger tr = true ->
  forallb sink_valid tr = true ->
  (offset_storage c <= mem_depth p)%nat ->
  (offset_storage c <= level s)%nat ->
  (offset_storage c <= level (run p c s tr))%nat.
Proof.
  intros F Ht Hv Hd. revert s F Ht Hv.
  induction tr as [|i tr IH]; intros s F Ht Hv Hl; [exact Hl|].
  cbn [forallb] in Ht, Hv.
  apply andb_prop in Ht. destruct Ht as [Hi Ht].
  apply andb_prop in Hv. destruct Hv as [Vi Hv].
  rewrite run_cons. apply IH; try assumption.
  - apply wait_step_stays; assumption.
  - apply wait_level_keep_step; assumption.
Qed.

Section Sane.

Hypothesis offset_sane : (2 <= offset_storage c <= mem_depth p)%nat.

(** WAIT with a sane offset: the window is never passed and no
    presented word is refused. *)
Lemma wait_window_run (tr : list inputs) (s : state) :
  fsm s = WAIT -> wf p s -> forallb no_trigger tr = true ->
  (level s <= offset_storage c)%nat ->
  (level (run p c s tr) <= offset_storage c)%nat
  /\ written p c s tr
     = map (fun i => data (sink i)) (filter sink_valid tr).
Proof.
  revert s. induction tr as [|i tr IH]; intros s F Hwf Ht Hl.
  - split; [exact Hl | reflexivity].
  - cbn [forallb] in Ht. apply andb_prop in Ht. destruct Ht as [Hi Ht].
    rewrite run_cons. cbn [written filter].
    destruct (IH (step p c s i)) as [A B].
    + apply wait_step_stays; assumption.
    + apply wf_step, Hwf.
    + exact Ht.
    + apply wait_level_le_step; try assumption. lia.
    + split; [exact A|]. rewrite B, (wait_writes p s i F).
      rewrite (wait_writable p c s Hwf offset_sane Hl), andb_true_r.
      destruct (sink_valid i); reflexivity.
Qed.

(** With a word presented every cycle the buffer is the sliding window
    of the [offset] most recent words. *)
Lemma wait_slide_run (tr : list inputs) (s : state) :
  fsm s = WAIT -> wf p s -> forallb no_trigger tr = true ->
  forallb sink_valid tr = true ->
  (level s <= offset_storage c)%nat ->
  contents (run p c s tr)
  = lastn (offset_storage c)
          (contents s ++ map (fun i => data (sink i)) tr).
Proof.
  revert s. induction tr as [|i tr IH]; intros s F Hwf Ht Hv Hl.
  - cbn [run fold_left map]. rewrite app_nil_r. symmetry.
    apply lastn_all. rewrite <- level_contents. exact Hl.
  - cbn [forallb] in Ht, Hv.
    apply andb_prop in Ht. destruct Ht as [Hi Ht].
    apply andb_prop in Hv. destruct Hv as [Vi Hv].
    rewrite run_cons, IH.
    + rewrite (wait_slide_step p c s i F Hwf offset_sane Hl Vi).
      rewrite lastn_lastn_app, <- app_assoc. reflexivity.
    + apply wait_step_stays; assumption.
    + apply wf_step, Hwf.
    + exact Ht.
    + exact Hv.
    + apply wait_level_le_step; try assumption. lia.
Qed.

End Sane.

(** RUN below [length] with room in the FIFO: words accumulate. *)
Lemma run_fill (tr : list inputs) (s : state) :
  fsm s = RUN -> wf p s -> forallb sink_valid tr = true ->
  (length_storage c <= mem_depth p)%nat ->
  (level s + length tr <= length_storage c)%nat ->
  fsm (run p c s tr) = RUN
  /\ contents (run p c s tr)
     = contents s ++ map (fun i => data (sink i)) tr.
Proof.
  intros F Hwf Hv Hd. revert s F Hwf Hv.
  induction tr as [|i tr IH]; intros s F Hwf Hv Hl.
  - split; [exact F|]. cbn. rewrite app_nil_r. reflexivity.
  - cbn [forallb] in Hv. apply andb_prop in Hv. destruct Hv as [Vi Hv].
    cbn [length] in Hl.
    assert (W : writable p s = true) by (apply writable_below; [exact Hwf|lia]).
    assert (E : run_exit p c s = false).
    { unfold run_exit. rewrite W. cbn [negb orb]. apply Nat.leb_gt. lia. }
    assert (C : contents (step p c s i) = contents s ++ [data (sink i)]).
    { rewrite contents_step, (run_pops p c s i F), (run_writes p s i F).
      rewrite E, Vi, W. reflexivity. }
    assert (F' : fsm (step p c s i) = RUN).
    { unfold step, next_state. cbn [fsm]. rewrite F, E. reflexivity. }
    rewrite run_cons.
    destruct (IH (step p c s i) F' (wf_step p c s i Hwf) Hv) as [A B].
    + rewrite level_contents, C, length_app, <- level_contents. cbn. lia.
    + split; [exact A|]. rewrite B, C, <- app_assoc. reflexivity.
Qed.

Lemma words_valid (l : list Z) : forallb sink_valid (map word l) = true.
Proof. induction l; [reflexivity | exact IHl]. Qed.

Lemma words_no_trigger (l : list Z) : forallb no_trigger (map word l) = true.
Proof. induction l; [reflexivity | exact IHl]. Qed.

Lemma words_data (l : list Z) :
  map (fun i => data (sink i)) (map word l) = l.
Proof. induction l as [|x l IH]; [reflexivity|]. cbn. f_equal. exact IH. Qed.

Lemma samples_held_length (s : state) :
  length (samples_held p s) = (cd_ratio p * level s)%nat.
Proof.
  unfold samples_held. rewrite level_contents.
  induction (contents s) as [|w l IH]; cbn [flat_map length].
  - lia.
  - rewrite length_app, IH. unfold samples_of_word.
    rewrite length_map, length_seq. lia.
Qed.

End Window.

(** C2 (as amended): with a fixed configuration in which
    [offset <= length] and [length >= 2], the buffer holds at most
    [length] words in every state reached from reset, so in particular
    from the cycle RUN is entered until the capture has ended.  In WAIT,
    once the level has reached [offset], the buffer keeps at least
    [offset - 1] words for as long as no hit word is presented; it keeps
    at least [offset] when a word is presented on every cycle and
    [offset] does not exceed the FIFO depth. *)
Theorem window_level_bounds :
  forall (p : Storage.params) (c : Storage.csr)
         (tr tr' : list Storage.inputs),
    let s := Storage.run p c Storage.reset tr in
    let s' := Storage.run p c s tr' in
    ((Storage.offset_storage c <= Storage.length_storage c)%nat ->
     (2 <= Storage.length_storage c)%nat ->
     (Storage.level s <= Storage.length_storage c)%nat)
    /\ (Storage.fsm s = WAIT ->
        (Storage.offset_storage c <= Storage.level s)%nat ->
        forallb Storage.no_trigger tr' = true ->
        Storage.fsm s' = WAIT
        /\ (Storage.offset_storage c - 1 <= Storage.level s')%nat
        /\ (forallb Storage.sink_valid tr' = true ->
            (Storage.offset_storage c <= Storage.mem_depth p)%nat ->
            (Storage.offset_storage c <= Storage.level s')%nat)).
Proof.
  intros p c tr tr' s s'. subst s s'. split.
  - intros Ho H2. apply level_le_length_run; try assumption.
    + apply wf_reset.
    + cbn. lia.
  - intros F Hl Ht. split; [|split].
    + apply wait_stays; assumption.
    + apply wait_level_ge_run; try assumption. lia.
    + intros Hv Hd. apply wait_level_keep_run; assumption.
Qed.

Lemma window_level_bounds_witness :
  let p := Storage.Params 8 8 1 in
  let c := Storage.Csr 4 2 in
  let tr := [Storage.start; Storage.word 10; Storage.word 11] in
  let tr' := [Storage.word 12; Storage.quiet; Storage.word 13] in
  let s := Storage.run p c Storage.reset tr in
  (Storage.level s <= 4)%nat
  /\ Storage.fsm (Storage.run p c s tr') = WAIT
  /\ (2 - 1 <= Storage.level (Storage.run p c s tr'))%nat.
Proof.
  intros p c tr tr' s.
  destruct (window_level_bounds p c tr tr') as [A B].
  split.
  - apply A; vm_compute; lia.
  - destruct B as (B1 & B2 & _).
    + reflexivity.
    + vm_compute. lia.
    + reflexivity.
    + split; [exact B1 | exact B2].
Defined.

(** C2, counterexample.  (1) [length = 1], [offset = 0]: RUN is entered
    with 2 words in the buffer.  (2) [length = 2], [offset = 4]: RUN is
    entered with 4 words.  (3) [length = 4], [offset = 2]: the level
    reaches [offset] in WAIT, then a cycle without an input word drains
    one word and only 1 is left, with no trigger in sight. *)
Lemma window_level_bounds_counterexample :
  let p := Storage.Params 8 8 1 in
  (let c := Storage.Csr 1 0 in
   let s := Storage.run p c Storage.reset
              [Storage.start; Storage.word 10; Storage.trig 14] in
   Storage.fsm s = RUN
   /\ ~ (Storage.level s <= Storage.length_storage c)%nat)
  /\ (let c := Storage.Csr 2 4 in
      let s := Storage.run p c Storage.reset
                 ([Storage.start] ++ map Storage.word [10; 11; 12; 13]
                  ++ [Storage.trig 14]) in
      Storage.fsm s = RUN
      /\ ~ (Storage.level s <= Storage.length_storage c)%nat)
  /\ (let c := Storage.Csr 4 2 in
      let s := Storage.run p c Storage.reset
                 [Storage.start; Storage.word 10; Storage.word 11] in
      let s' := Storage.step p c s Storage.quiet in
      Storage.fsm s = WAIT
      /\ Storage.level s = Storage.offset_storage c
      /\ Storage.no_trigger Storage.quiet = true
      /\ Storage.fsm s' = WAIT
      /\ ~ (Storage.offset_storage c <= Storage.level s')%nat).
Proof.
  cbv zeta. repeat split; vm_compute; lia.
Qed.

(** C3 (as amended): in WAIT every presented word is written when the
    buffer can accept it, and the buffer's read enable is asserted exactly
    when the level is at least [offset] (a word is drained on such a cycle
    if the output register holds one).  While no hit word is presented the
    controller stays in WAIT, and the buffer always holds the most recent
    words written.  When [2 <= offset <= depth//cd_ratio] and the level
    starts at or below [offset], every presented word is written, the
    level never exceeds [offset], and it does not drop below [offset - 1]
    once it has reached [offset]; with a word presented on every cycle the
    buffer is exactly the [offset] most recent words. *)
Theorem wait_sliding_window :
  forall (p : Storage.params) (c : Storage.csr) (s : Storage.state)
         (tr : list Storage.inputs) (i : Storage.inputs),
    Storage.fsm s = WAIT ->
    forallb Storage.no_trigger tr = true ->
    let s' := Storage.run p c s tr in
    let words := map (fun j => data (Storage.sink j)) in
    Storage.writes p s i = Storage.sink_valid i && Storage.writable p s
    /\ Storage.mem_re p c s i
       = (Storage.offset_storage c <=? Storage.level s)%nat
    /\ Storage.fsm s' = WAIT
    /\ Storage.contents s'
       = lastn (Storage.level s')
               (Storage.contents s ++ Storage.written p c s tr)
    /\ (Storage.wf p s ->
        (2 <= Storage.offset_storage c <= Storage.mem_depth p)%nat ->
        (Storage.level s <= Storage.offset_storage c)%nat ->
        (Storage.level s' <= Storage.offset_storage c)%nat
        /\ Storage.written p c s tr = words (filter Storage.sink_valid tr)
        /\ (Storage.level s = Storage.offset_storage c ->
            (Storage.offset_storage c - 1 <= Storage.level s')%nat)
        /\ (forallb Storage.sink_valid tr = true ->
            Storage.contents s'
            = lastn (Storage.offset_storage c)
                    (Storage.contents s ++ words tr))).
Proof.
  intros p c s tr i F Ht s' words. subst s' words.
  split; [apply wait_writes, F|].
  split; [unfold Storage.mem_re; rewrite F; reflexivity|].
  split; [apply wait_stays; assumption|].
  split; [apply contents_window|].
  intros Hwf Ho Hl.
  destruct (wait_window_run p c Ho tr s F Hwf Ht Hl) as [A B].
  split; [exact A|]. split; [exact B|]. split.
  - intros E. apply wait_level_ge_run; try assumption. lia.
  - intros Hv. apply wait_slide_run; assumption.
Qed.

Lemma wait_sliding_window_witness :
  let p := Storage.Params 8 8 1 in
  let c := Storage.Csr 6 3 in
  let s := Storage.run p c Storage.reset [Storage.start; Storage.word 10] in
  let tr := map Storage.word [11; 12; 13; 14; 15] in
  Storage.fsm (Storage.run p c s tr) = WAIT
  /\ Storage.contents (Storage.run p c s tr)
     = lastn 3 ([10] ++ [11; 12; 13; 14; 15]).
Proof.
  intros p c s tr.
  destruct (wait_sliding_window p c s tr Storage.quiet eq_refl eq_refl)
    as (_ & _ & A & _ & B).
  split; [exact A|].
  destruct B as (_ & _ & _ & B).
  - vm_compute. split; intros; lia.
  - vm_compute. lia.
  - vm_compute. lia.
  - apply B. reflexivity.
Defined.

(** C3, counterexample.  (1) [offset = 0], a word on every cycle, never a
    hit: the buffer holds 2 words, more than [offset].  (2) [offset = 2]:
    after the level has reached 2, a cycle without an input word leaves
    1 word, not the 2 most recent ones. *)
Lemma wait_sliding_window_counterexample :
  let p := Storage.Params 8 8 1 in
  (let c := Storage.Csr 4 0 in
   let s := Storage.run p c Storage.reset
              ([Storage.start] ++ map Storage.word [10; 11; 12; 13]) in
   Storage.fsm s = WAIT
   /\ Storage.contents s = [12; 13]
   /\ ~ (Storage.level s <= Storage.offset_storage c)%nat)
  /\ (let c := Storage.Csr 4 2 in
      let s := Storage.run p c Storage.reset
                 [Storage.start; Storage.word 10; Storage.word 11;
                  Storage.word 12; Storage.quiet] in
      Storage.fsm s = WAIT
      /\ Storage.contents s = [12]
      /\ Storage.level s <> Storage.offset_storage c).
Proof.
  cbv zeta. repeat split; vm_compute; try lia; discriminate.
Qed.

(** C8 (as amended): [length] and [offset] are compared with the fill
    level of the FIFO, which counts buffered words; a word carries
    [cd_ratio] samples, so the parameters count samples only when
    [cd_ratio = 1].  For a capture started from reset with
    [2 <= offset <= length <= depth//cd_ratio], fed one word per cycle, at
    least [offset] of them before the hit word: RUN is left when the level
    is [length], and IDLE is entered with the last [offset - 2] words that
    preceded the hit word, the hit word, the [length - offset] words that
    followed it, and the word presented on the exit cycle if there was
    one; that is [length] words ([length - 1] without a word on the exit
    cycle), each of [cd_ratio] samples. *)
Theorem capture_window_counts_words :
  forall (p : Storage.params) (c : Storage.csr)
         (pre : list Z) (h : Z) (post : list Z) (i : Storage.inputs),
    (2 <= Storage.offset_storage c <= Storage.length_storage c)%nat ->
    (Storage.length_storage c <= Storage.mem_depth p)%nat ->
    (Storage.offset_storage c <= length pre)%nat ->
    length post
    = (Storage.length_storage c - Storage.offset_storage c)%nat ->
    let s := Storage.run p c Storage.reset
               (Storage.start :: map Storage.word pre
                ++ Storage.trig h :: map Storage.word post) in
    let s' := Storage.step p c s i in
    let w := if Storage.sink_valid i then [data (Storage.sink i)] else [] in
    Storage.fsm s = RUN
    /\ Storage.level s = Storage.length_storage c
    /\ Storage.fsm s' = IDLE
    /\ Storage.contents s'
       = lastn (Storage.offset_storage c - 2) pre ++ h :: post ++ w
    /\ Storage.level s'
       = (Storage.length_storage c - 1 + length w)%nat
    /\ length (Storage.samples_held p s')
       = (Storage.cd_ratio p * Storage.level s')%nat.
Proof.
  intros p c pre h post i Ho Hd Hpre Hpost s s' w.
  set (o := Storage.offset_storage c) in *.
  set (n := Storage.length_storage c) in *.
  (* IDLE -> WAIT on the start pulse, the buffer still empty *)
  set (s0 := Storage.step p c Storage.reset Storage.start).
  assert (F0 : Storage.fsm s0 = WAIT) by reflexivity.
  assert (W0 : Storage.wf p s0) by (apply wf_step, wf_reset).
  assert (C0 : Storage.contents s0 = []) by reflexivity.
  assert (L0 : (Storage.level s0 <= o)%nat) by (cbn; lia).
  assert (Hod : (2 <= o <= Storage.mem_depth p)%nat) by lia.
  (* WAIT over the words before the hit *)
  set (s1 := Storage.run p c s0 (map Storage.word pre)).
  assert (F1 : Storage.fsm s1 = WAIT)
    by (apply wait_stays; [exact F0 | apply words_no_trigger]).
  assert (W1 : Storage.wf p s1) by (apply wf_run, W0).
  assert (C1 : Storage.contents s1 = lastn o pre).
  { unfold s1. rewrite (wait_slide_run p c Hod _ s0 F0 W0
                          (words_no_trigger pre) (words_valid pre) L0).
    rewrite C0, words_data. reflexivity. }
  assert (L1 : Storage.level s1 = o).
  { rewrite level_contents, C1, lastn_length. lia. }
  (* the hit word *)
  set (s2 := Storage.step p c s1 (Storage.trig h)).
  assert (F2 : Storage.fsm s2 = RUN).
  { unfold s2, Storage.step, Storage.next_state. cbn [Storage.fsm].
    rewrite F1. reflexivity. }
  assert (W2 : Storage.wf p s2) by (apply wf_step, W1).
  assert (C2 : Storage.contents s2 = lastn (o - 1) pre ++ [h]).
  { unfold s2. rewrite (wait_slide_step p c s1 (Storage.trig h) F1 W1 Hod)
      by (try reflexivity; lia).
    rewrite C1, lastn_lastn_app. cbn [Storage.trig Storage.sink data].
    rewrite lastn_app by (cbn; lia). reflexivity. }
  assert (L2 : Storage.level s2 = o).
  { rewrite level_contents, C2, length_app, lastn_length. cbn. lia. }
  (* RUN over the words after the hit *)
  set (s3 := Storage.run p c s2 (map Storage.word post)).
  destruct (run_fill p c (map Storage.word post) s2 F2 W2 (words_valid post) Hd)
    as [F3 C3]; [rewrite length_map; lia|].
  fold s3 in F3, C3. rewrite words_data, C2 in C3.
  assert (W3 : Storage.wf p s3) by (apply wf_run, W2).
  assert (L3 : Storage.level s3 = n).
  { rewrite level_contents, C3, !length_app, lastn_length. cbn. lia. }
  assert (E : s = s3).
  { unfold s, s3, s2, s1, s0.
    rewrite run_cons, run_app, run_cons. reflexivity. }
  subst s'. rewrite E.
  (* the exit cycle *)
  assert (R3 : SyncFIFO.readable (Storage.mem s3) = true)
    by (apply (wf_readable p); [exact W3 | lia]).
  assert (X : Storage.run_exit p c s3 = true).
  { unfold Storage.run_exit. fold n. rewrite L3, Nat.leb_refl.
    apply orb_true_r. }
  assert (Wr : Storage.writes p s3 i = Storage.sink_valid i).
  { rewrite (run_writes p s3 i F3), (writable_readable p s3 R3) by lia.
    apply andb_true_r. }
  assert (C4 : Storage.contents (Storage.step p c s3 i)
               = lastn (o - 2) pre ++ h :: post ++ w).
  { rewrite contents_step, (run_pops p c s3 i F3), X, R3, Wr, C3.
    cbn [andb]. fold w.
    destruct (Nat.eq_dec o 2) as [O2|O2].
    - rewrite O2. cbn [Nat.sub].
      assert (P1 : exists x, lastn 1 pre = [x]).
      { assert (P : length (lastn 1 pre) = 1%nat)
          by (rewrite lastn_length; lia).
        destruct (lastn 1 pre) as [|x [|y r]]; cbn [length] in P; try lia.
        exists x. reflexivity. }
      destruct P1 as [x P1]. rewrite P1.
      replace (lastn 0 pre) with (@nil Z)
        by (unfold lastn; rewrite Nat.sub_0_r, skipn_all; reflexivity).
      reflexivity.
    - rewrite <- app_assoc.
      rewrite tl_app_nonempty.
      + replace (o - 1)%nat with (S (o - 2)) by lia.
        rewrite tl_lastn by lia. rewrite <- app_assoc. reflexivity.
      + intros Z0. apply (f_equal (@length Z)) in Z0.
        rewrite lastn_length in Z0. cbn in Z0. lia. }
  split; [exact F3|]. split; [exact L3|]. split.
  { unfold Storage.step, Storage.next_state. cbn [Storage.fsm].
    rewrite F3, X. reflexivity. }
  split; [exact C4|]. split.
  - rewrite level_contents, C4. rewrite !length_app, lastn_length.
    cbn [length]. rewrite length_app. lia.
  - apply samples_held_length.
Qed.

Lemma capture_window_counts_words_witness :
  let p := Storage.Params 16 16 2 in
  let c := Storage.Csr 4 2 in
  let s := Storage.run p c Storage.reset
             (Storage.start :: map Storage.word [256; 770; 1284; 1798]
              ++ Storage.trig 2312 :: map Storage.word [2826; 3340]) in
  let s' := Storage.step p c s (Storage.word 3854) in
  Storage.fsm s' = IDLE
  /\ Storage.contents s' = [2312; 2826; 3340; 3854]
  /\ length (Storage.samples_held p s') = (2 * Storage.level s')%nat.
Proof.
  intros p c s s'.
  destruct (capture_window_counts_words p c [256; 770; 1284; 1798] 2312
              [2826; 3340] (Storage.word 3854))
    as (_ & _ & A & B & _ & C).
  - vm_compute. lia.
  - vm_compute. lia.
  - vm_compute. lia.
  - reflexivity.
  - split; [exact A|]. split; [exact B | exact C].
Defined.

(** C8, counterexample: [depth = 16] samples with [cd_ratio = 2], so the
    FIFO holds words of two samples; [length = 4], [offset = 2].  The
    completed capture holds 4 words, that is 8 samples and not 4, and the
    hit word is the oldest word kept: no pre-trigger sample is retained,
    where the specification promises [offset] of them. *)
Lemma capture_window_samples_counterexample :
  let p := Storage.Params 16 16 2 in
  let c := Storage.Csr 4 2 in
  let s' := Storage.run p c Storage.reset
              (Storage.start :: map Storage.word [256; 770; 1284; 1798]
               ++ Storage.trig 2312
               :: map Storage.word [2826; 3340; 3854; 4368]) in
  Storage.fsm s' = IDLE
  /\ Storage.contents s' = [2312; 2826; 3340; 3854]
  /\ Storage.samples_held p s' = [8; 9; 10; 11; 12; 13; 14; 15]
  /\ length (Storage.samples_held p s') <> Storage.length_storage c
  /\ nth_error (Storage.contents s') (Storage.offset_storage c) <> Some 2312.
Proof.
  cbv zeta. repeat split; vm_compute; discriminate.
Qed.


(** * Further properties of the code *)

(** ** Sample width *)

Section CeilPow2.

Import Analyzer.

Lemma bits_for_pred (v : Z) : 2 <= v -> bits_for (v - 1) = Z.log2 (v - 1) + 1.
Proof.
  intros H. unfold bits_for, log2_int, bit_length.
  destruct (Z.ltb_spec 0 (v - 1)) as [L|L]; [|lia].
  destruct (Z.eqb_spec (v - 1 + 1) 0) as [E|E]; [lia|].
  replace (v - 1 + 1 - 1) with (v - 1) by lia.
  destruct (Z.eqb_spec (v - 1) 0) as [E'|E']; [lia|].
  rewrite Z.abs_eq by lia. reflexivity.
Qed.

Lemma ceil_pow2_small (v : Z) : 0 <= v <= 1 -> ceil_pow2 v = 2.
Proof.
  intros H. assert (C : v = 0 \/ v = 1) by lia.
  destruct C as [-> | ->]; reflexivity.
Qed.

Lemma ceil_pow2_ge (v : Z) : 0 <= v -> v <= ceil_pow2 v.
Proof.
  intros H. destruct (Z_lt_le_dec v 2) as [S|S].
  - rewrite ceil_pow2_small by lia. lia.
  - unfold ceil_pow2. rewrite bits_for_pred by exact S.
    pose proof (Z.log2_spec (v - 1) ltac:(lia)) as [_ U].
    unfold Z.succ in U. lia.
Qed.

End CeilPow2.

(** X1 ([ceil_pow2]): for [v >= 2] the result is the least power of two
    that is at least [v], so it is below [2*v]; for [v] of 0 or 1 it is
    2, not 1. *)
Theorem ceil_pow2_least_power :
  forall v : Z,
    2 <= v ->
    Analyzer.ceil_pow2 v = 2 ^ (Z.log2 (v - 1) + 1)
    /\ v <= Analyzer.ceil_pow2 v < 2 * v
    /\ (forall e, 0 <= e -> v <= 2 ^ e -> Analyzer.ceil_pow2 v <= 2 ^ e)
    /\ Analyzer.ceil_pow2 0 = 2
    /\ Analyzer.ceil_pow2 1 = 2.
Proof.
  intros v H.
  assert (E : Analyzer.ceil_pow2 v = 2 ^ (Z.log2 (v - 1) + 1)).
  { unfold Analyzer.ceil_pow2. rewrite bits_for_pred by exact H. reflexivity. }
  pose proof (Z.log2_spec (v - 1) ltac:(lia)) as [L U].
  pose proof (Z.log2_nonneg (v - 1)) as N.
  unfold Z.succ in U.
  split; [exact E|]. split; [|split; [|split; reflexivity]].
  - rewrite E. split; [lia|].
    rewrite Z.pow_add_r by lia. change (2 ^ 1) with 2. lia.
  - intros e He Hv. rewrite E. apply Z.pow_le_mono_r; [lia|].
    assert (Z.log2 (v - 1) < e); [|lia].
    apply Z.log2_lt_pow2; lia.
Qed.

Lemma ceil_pow2_least_power_witness :
  Analyzer.ceil_pow2 5 = 8 /\ 5 <= Analyzer.ceil_pow2 5 < 2 * 5.
Proof.
  destruct (ceil_pow2_least_power 5 ltac:(lia)) as (_ & B & _).
  split; [reflexivity | exact B].
Defined.

(** ** The sample word *)

Section CatFields.

Import Analyzer.

Lemma trunc_bits_low (w x n : Z) :
  0 <= n < w -> Z.testbit (trunc w x) n = Z.testbit x n.
Proof. intros H. unfold trunc. apply Z.mod_pow2_bits_low. lia. Qed.

Lemma trunc_bits_high (w x n : Z) :
  0 <= w <= n -> Z.testbit (trunc w x) n = false.
Proof. intros H. unfold trunc. apply Z.mod_pow2_bits_high. lia. Qed.

(** Two words with the same low [w] bits truncate alike. *)
Lemma trunc_ext (w x y : Z) :
  0 <= w ->
  (forall n, 0 <= n < w -> Z.testbit x n = Z.testbit y n) ->
  trunc w x = trunc w y.
Proof.
  intros Hw H. apply Z.bits_inj'. intros n Hn.
  destruct (Z_lt_le_dec n w) as [L|L].
  - rewrite !trunc_bits_low by lia. apply H. lia.
  - rewrite !trunc_bits_high by lia. reflexivity.
Qed.

Lemma total_width_cons (s : signal) (r : list signal) :
  total_width (s :: r) = Z.of_nat (width s) + total_width r.
Proof. reflexivity. Qed.

Lemma total_width_nonneg (sigs : list signal) : 0 <= total_width sigs.
Proof.
  induction sigs as [|s r IH]; [cbn; lia|]. rewrite total_width_cons. lia.
Qed.

Lemma offset_of_bound (sigs : list signal) :
  forall k s, nth_error sigs k = Some s ->
    0 <= offset_of sigs k
    /\ offset_of sigs k + Z.of_nat (width s) <= total_width sigs.
Proof.
  unfold offset_of. induction sigs as [|s0 r IH]; intros k s H.
  - destruct k; discriminate.
  - rewrite total_width_cons. destruct k as [|k]; cbn [nth_error firstn] in *.
    + inversion H; subst. pose proof (total_width_nonneg r).
      change (total_width []) with 0. lia.
    + rewrite total_width_cons. specialize (IH k s H). lia.
Qed.

(** Bit [n] of signal [k] sits at bit [offset_of sigs k + n] of [Cat]. *)
Lemma Cat_bits (sigs : list signal) :
  forall k s n, nth_error sigs k = Some s ->
    0 <= n < Z.of_nat (width s) ->
    Z.testbit (Cat sigs) (offset_of sigs k + n) = Z.testbit (value s) n.
Proof.
  unfold offset_of. induction sigs as [|s0 r IH]; intros k s n H Hn.
  - destruct k; discriminate.
  - destruct k as [|k]; cbn [nth_error firstn Cat] in *.
    + inversion H; subst. change (total_width []) with 0.
      rewrite Z.add_0_l, Z.lor_spec.
      rewrite trunc_bits_low by lia.
      rewrite Z.shiftl_spec_low by lia. apply orb_false_r.
    + destruct (offset_of_bound r k s H) as [O _]. unfold offset_of in O.
      rewrite total_width_cons, Z.lor_spec.
      rewrite trunc_bits_high by lia.
      rewrite Z.shiftl_spec by lia. cbn [orb].
      replace (Z.of_nat (width s0) + total_width (firstn k r) + n
               - Z.of_nat (width s0))
        with (total_width (firstn k r) + n) by lia.
      apply IH; assumption.
Qed.

End CatFields.

(** X2 ([LiteScopeAnalyzer.__init__]): the sample word is wide enough for
    all watched signals, and every signal can be read back from it: the
    [width] bits starting at the sum of the widths before it are the
    signal's value. *)
Theorem sample_holds_every_signal :
  forall (sigs : list Analyzer.signal) (k : nat) (s : Analyzer.signal),
    nth_error sigs k = Some s ->
    Analyzer.total_width sigs <= Analyzer.dw sigs
    /\ trunc (Z.of_nat (Analyzer.width s))
             (Z.shiftr (Analyzer.sample sigs) (Analyzer.offset_of sigs k))
       = trunc (Z.of_nat (Analyzer.width s)) (Analyzer.value s).
Proof.
  intros sigs k s H.
  assert (D : Analyzer.total_width sigs <= Analyzer.dw sigs)
    by (apply ceil_pow2_ge, total_width_nonneg).
  split; [exact D|].
  destruct (offset_of_bound sigs k s H) as [O B].
  apply trunc_ext; [lia|]. intros n Hn.
  rewrite Z.shiftr_spec by lia.
  unfold Analyzer.sample. rewrite trunc_bits_low by lia.
  rewrite Z.add_comm. apply Cat_bits; assumption.
Qed.

Lemma sample_holds_every_signal_witness :
  let sigs := [Analyzer.Signal 3 5; Analyzer.Signal 1 1; Analyzer.Signal 5 19] in
  Analyzer.dw sigs = 16
  /\ Analyzer.sample sigs = 317
  /\ trunc 5 (Z.shiftr (Analyzer.sample sigs) 4) = trunc 5 19.
Proof.
  intros sigs. split; [reflexivity|]. split; [reflexivity|].
  exact (proj2 (sample_holds_every_signal sigs 2 (Analyzer.Signal 5 19) eq_refl)).
Defined.

(** ** Trigger matcher: which samples hit *)

Lemma match_hit_eq (s : Trigger.state) (d : Z) :
  Trigger.match_hit s d = 1 <-> Z.land d (Trigger.mask s) = Trigger.value s.
Proof.
  unfold Trigger.match_hit.
  destruct (Z.eqb_spec (Z.land d (Trigger.mask s)) (Trigger.value s));
    split; intros; try reflexivity; try assumption; try discriminate; tauto.
Qed.

(** X3 ([FrontendTrigger]): a sample hits exactly when it agrees with
    [value] on every bit selected by [mask] and [value] is 0 on every bit
    [mask] leaves out; the bits of the sample outside [mask] do not
    matter. *)
Theorem hit_iff_masked_bits_agree :
  forall (s : Trigger.state) (d : Z),
    Trigger.match_hit s d = 1
    <-> (forall n, 0 <= n -> Z.testbit (Trigger.mask s) n = true ->
           Z.testbit d n = Z.testbit (Trigger.value s) n)
        /\ (forall n, 0 <= n -> Z.testbit (Trigger.mask s) n = false ->
              Z.testbit (Trigger.value s) n = false).
Proof.
  intros s d. rewrite match_hit_eq, <- Z.bits_inj_iff'. split.
  - intros H. split; intros n Hn Hm; specialize (H n Hn);
      rewrite Z.land_spec, Hm in H.
    + rewrite andb_true_r in H. exact H.
    + rewrite andb_false_r in H. symmetry. exact H.
  - intros [A B] n Hn. rewrite Z.land_spec.
    destruct (Z.testbit (Trigger.mask s) n) eqn:Hm.
    + rewrite andb_true_r. apply A; assumption.
    + rewrite andb_false_r. symmetry. apply B; assumption.
Qed.

(** X4 ([FrontendTrigger]): the [value] CSR is one bit wider than the
    data (it is sized on the whole payload); a [value] with a bit set at
    or above the data width matches no sample of that width. *)
Theorem value_bit_above_data_never_hits :
  forall (dw : Z) (s : Trigger.state) (d n : Z),
    0 <= dw ->
    0 <= d < 2 ^ dw ->
    dw <= n ->
    Z.testbit (Trigger.value s) n = true ->
    Trigger.match_hit s d = 0.
Proof.
  intros dw s d n Hdw Hd Hn Hv.
  assert (E : Trigger.match_hit s d <> 1).
  { rewrite match_hit_eq. intros E.
    assert (B : Z.testbit (Z.land d (Trigger.mask s)) n = true)
      by (rewrite E; exact Hv).
    rewrite Z.land_spec in B. apply andb_prop in B. destruct B as [B _].
    rewrite <- (Z.mod_small d (2 ^ dw)) in B by lia.
    rewrite Z.mod_pow2_bits_high in B by lia. discriminate. }
  unfold Trigger.match_hit in *.
  destruct (Z.land d (Trigger.mask s) =? Trigger.value s);
    [congruence | reflexivity].
Qed.

Lemma value_bit_above_data_never_hits_witness :
  Trigger.match_hit
    (Trigger.State (MultiReg.Make 0 256) (MultiReg.Make 0 256)) 255 = 0.
Proof.
  apply (value_bit_above_data_never_hits 8 _ 255 8).
  - lia.
  - split; [lia | reflexivity].
  - lia.
  - reflexivity.
Defined.

(** X5 ([FrontendTrigger], [AnalyzerStorage]): with [mask] and [value]
    both 0, as they are after reset, every sample hits; a controller in
    WAIT fed by such a trigger is in RUN after the first word it is
    presented. *)
Theorem zero_configuration_hits_every_sample :
  forall (s : Trigger.state) (d : Z)
         (p : Storage.params) (c : Storage.csr)
         (st : Storage.state) (si : Storage.inputs),
    Trigger.mask s = 0 ->
    Trigger.value s = 0 ->
    Storage.fsm st = WAIT ->
    Storage.sink_valid si = true ->
    hit (Storage.sink si) = Trigger.match_hit s d ->
    Trigger.match_hit s d = 1
    /\ Storage.fsm (Storage.step p c st si) = RUN
    /\ Trigger.mask Trigger.reset = 0
    /\ Trigger.value Trigger.reset = 0.
Proof.
  intros s d p c st si Hm Hv F V Hh.
  assert (E : Trigger.match_hit s d = 1).
  { apply match_hit_eq. rewrite Hm, Hv. apply Z.land_0_r. }
  split; [exact E|]. split; [|split; reflexivity].
  unfold Storage.step, Storage.next_state. cbn [Storage.fsm].
  rewrite F, V, Hh, E. reflexivity.
Qed.

Lemma zero_configuration_hits_every_sample_witness :
  Trigger.match_hit Trigger.reset 77 = 1
  /\ Storage.fsm
       (Storage.step (Storage.Params 8 8 1) (Storage.Csr 4 2)
          (Storage.State WAIT SyncFIFO.reset)
          (Storage.Inputs false false false true (Payload 77 1))) = RUN.
Proof.
  destruct (zero_configuration_hits_every_sample Trigger.reset 77
              (Storage.Params 8 8 1) (Storage.Csr 4 2)
              (Storage.State WAIT SyncFIFO.reset)
              (Storage.Inputs false false false true (Payload 77 1))
              eq_refl eq_refl eq_refl eq_refl eq_refl) as (A & B & _).
  split; [exact A | exact B].
Defined.

(** ** Sub-sampler: what it never does *)

(** X6 ([FrontendSubSampler]): whatever the count, the counter and the
    valid/ready pattern, every sample handed downstream was accepted from
    upstream, once, and in the same order. *)
Theorem subsampler_emits_subsequence :
  forall (value counter : Z) (tr : list SubSampler.inputs),
    subseq (SubSampler.emitted value counter tr)
           (SubSampler.accepted value counter tr)
    /\ (length (SubSampler.emitted value counter tr)
        <= length (SubSampler.accepted value counter tr))%nat.
Proof.
  intros value counter tr. revert counter.
  induction tr as [|i tr IH]; intros counter.
  - split; [constructor | reflexivity].
  - cbn [SubSampler.emitted SubSampler.accepted SubSampler.comb
         SubSampler.source_valid SubSampler.sink_ready SubSampler.source].
    destruct (IH (SubSampler.step value counter i)) as [A B].
    destruct (SubSampler.sink_valid i), (SubSampler.done value counter),
      (SubSampler.source_ready i); cbn [andb app length];
      split; try (constructor; exact A); try exact A; lia.
Qed.

Lemma counter_after_cons (value counter : Z) (i : SubSampler.inputs)
      (tr : list SubSampler.inputs) :
  counter_after value counter (i :: tr)
  = counter_after value (SubSampler.step value counter i) tr.
Proof. reflexivity. Qed.

(** X7 ([FrontendSubSampler]): while downstream is not ready nothing is
    accepted, nothing is handed on and the counter does not move. *)
Theorem subsampler_stalls_without_ready :
  forall (value counter : Z) (tr : list SubSampler.inputs),
    forallb (fun i => negb (SubSampler.source_ready i)) tr = true ->
    SubSampler.accepted value counter tr = []
    /\ SubSampler.emitted value counter tr = []
    /\ counter_after value counter tr = counter.
Proof.
  intros value counter tr. induction tr as [|i tr IH]; intros H.
  - repeat split.
  - cbn [forallb] in H. apply andb_prop in H. destruct H as [Hi H].
    apply negb_true_iff in Hi.
    rewrite counter_after_cons.
    cbn [SubSampler.emitted SubSampler.accepted SubSampler.comb
         SubSampler.source_valid SubSampler.sink_ready SubSampler.source].
    replace (SubSampler.step value counter i) with counter
      by (unfold SubSampler.step; rewrite Hi; reflexivity).
    rewrite Hi, !andb_false_r. cbn [app]. apply IH, H.
Qed.

Lemma subsampler_stalls_without_ready_witness :
  let tr := [SubSampler.Inputs true (Payload 10 0) false;
             SubSampler.Inputs true (Payload 10 0) false] in
  SubSampler.accepted 3 2 tr = []
  /\ SubSampler.emitted 3 2 tr = []
  /\ counter_after 3 2 tr = 2.
Proof.
  intros tr. apply (subsampler_stalls_without_ready 3 2 tr). reflexivity.
Defined.

(** X8 ([FrontendSubSampler]): with a fixed 16-bit count [k], a counter
    that is within [0..k] (as it is after reset) stays there on every
    trace: the 16-bit increment never wraps. *)
Theorem subsampler_counter_bounded :
  forall (k counter : Z) (tr : list SubSampler.inputs),
    0 <= k < 2 ^ 16 ->
    0 <= counter <= k ->
    0 <= counter_after k counter tr <= k.
Proof.
  intros k counter tr Hk. revert counter.
  induction tr as [|i tr IH]; intros counter Hc; [exact Hc|].
  rewrite counter_after_cons. apply IH.
  unfold SubSampler.step, SubSampler.done.
  destruct (SubSampler.source_ready i); [|exact Hc].
  destruct (Z.eqb_spec counter k) as [E|E]; [lia|].
  destruct (SubSampler.sink_valid i); [|exact Hc].
  unfold trunc. rewrite Z.mod_small by lia. lia.
Qed.

Lemma subsampler_counter_bounded_witness :
  0 <= counter_after 3 SubSampler.counter_reset
         (map SubSampler.tick [0; 1; 2; 3; 4; 5]) <= 3.
Proof.
  apply subsampler_counter_bounded.
  - split; [lia | reflexivity].
  - unfold SubSampler.counter_reset. lia.
Defined.

(** ** Frontend: the trigger feeding the sub-sampler *)

Lemma every_map {A B : Type} (f : A -> B) (n : nat) (l : list A) :
  forall j, every n j (map f l) = map f (every n j l).
Proof.
  induction l as [|x t IH]; intros j; [reflexivity|].
  destruct j as [|j]; cbn [every map]; rewrite IH; reflexivity.
Qed.

Section FrontendChain.

Variables dw k v m : Z.
Variable T : Trigger.state.
Hypothesis k_range : 0 <= k < 2 ^ 16.
Hypothesis T_value : Trigger.value_sync T = MultiReg.Make v v.
Hypothesis T_mask : Trigger.mask_sync T = MultiReg.Make m m.

(** With the configuration settled the trigger's registers do not move
    and the sub-sampler sees every sample tagged by [Frontend.tag]. *)
Lemma chain_subsampler_in (c : Z) (i : Frontend.inputs) :
  Frontend.subsampler_in (Frontend.State T c) i
  = SubSampler.Inputs (Frontend.sink_valid i)
                      (Frontend.tag v m (data (Frontend.sink i)))
                      (Frontend.source_ready i).
Proof.
  assert (Ev : Trigger.value T = v)
    by (unfold Trigger.value; rewrite T_value; reflexivity).
  assert (Em : Trigger.mask T = m)
    by (unfold Trigger.mask; rewrite T_mask; reflexivity).
  unfold Frontend.subsampler_in, Frontend.tag, Trigger.match_hit.
  cbn [Frontend.trigger Trigger.comb Trigger.source_valid Trigger.source
       Frontend.trigger_in Trigger.sink_valid Trigger.sink data].
  unfold Trigger.match_hit. rewrite Ev, Em. reflexivity.
Qed.

Lemma chain_step (c : Z) (i : Frontend.inputs) :
  Frontend.holds dw v m i ->
  Frontend.step dw k (Frontend.State T c) i
  = Frontend.State T (SubSampler.step k c
                        (Frontend.subsampler_in (Frontend.State T c) i)).
Proof.
  intros [Hv Hm]. unfold Frontend.step. f_equal.
  unfold Trigger.step, MultiReg.step.
  cbn [Frontend.trigger Frontend.trigger_in Trigger.value_storage
       Trigger.mask_storage].
  rewrite T_value, T_mask, Hv, Hm. cbn [MultiReg.r0].
  rewrite <- T_value, <- T_mask. destruct T; reflexivity.
Qed.

Lemma chain_emitted_every (tr : list Frontend.inputs) :
  forall c, 0 <= c <= k ->
    Forall (Frontend.holds dw v m) tr ->
    forallb Frontend.sink_valid tr = true ->
    Frontend.emitted dw k (Frontend.State T c) tr
    = map (Frontend.tag v m)
          (every (Z.to_nat k) (Z.to_nat (k - c))
                 (Frontend.accepted dw k (Frontend.State T c) tr)).
Proof.
  induction tr as [|i tr IH]; intros c Hc Hs Hv; [reflexivity|].
  inversion Hs as [|? ? Hi Hs']; subst.
  cbn [forallb] in Hv. apply andb_prop in Hv. destruct Hv as [Vi Hv].
  cbn [Frontend.emitted Frontend.accepted].
  rewrite (chain_step c i Hi).
  unfold Frontend.link_ready. rewrite chain_subsampler_in.
  cbn [SubSampler.comb SubSampler.source_valid SubSampler.sink_ready
       SubSampler.source SubSampler.sink_valid SubSampler.sink
       SubSampler.source_ready Frontend.trigger_in Trigger.comb
       Trigger.sink_ready Trigger.source_ready Frontend.counter].
  rewrite Vi. cbn [andb].
  unfold SubSampler.step, SubSampler.done.
  cbn [SubSampler.source_ready SubSampler.sink_valid].
  destruct (Frontend.source_ready i) eqn:R.
  - destruct (Z.eqb_spec c k) as [E|E]; cbn [app].
    + subst c. replace (k - k) with 0 by lia.
      cbn [Z.to_nat every map]. f_equal.
      rewrite (IH 0) by (try lia; assumption).
      replace (k - 0) with k by lia. reflexivity.
    + assert (Tr : trunc 16 (c + 1) = c + 1)
        by (unfold trunc; apply Z.mod_small; lia).
      rewrite Tr. rewrite (IH (c + 1)) by (try lia; assumption).
      replace (Z.to_nat (k - c)) with (S (Z.to_nat (k - (c + 1)))) by lia.
      reflexivity.
  - rewrite andb_false_r. cbn [app]. apply IH; assumption.
Qed.

End FrontendChain.

(** X9 ([AnalyzerFrontend]): the trigger feeding the sub-sampler, with the
    trigger configuration settled at [v], [m], a count [k] and an always
    valid input.  The samples leaving the sub-sampler are every
    [(k+1)]-th word accepted by the trigger, each tagged with the hit
    computed from its own data; a matching word on any other position is
    discarded together with its hit. *)
Theorem frontend_decimates_tagged_samples :
  forall (dw k v m : Z) (s : Frontend.state) (tr : list Frontend.inputs),
    0 <= k < 2 ^ 16 ->
    Frontend.counter s = SubSampler.counter_reset ->
    Frontend.settled dw v m s tr ->
    forallb Frontend.sink_valid tr = true ->
    Frontend.emitted dw k s tr
    = map (Frontend.tag v m)
          (every (Z.to_nat k) (Z.to_nat k) (Frontend.accepted dw k s tr)).
Proof.
  intros dw k v m [T c] tr Hk Hc (Hv & Hm & Hs) Hvalid.
  cbn [Frontend.counter Frontend.trigger] in *.
  unfold SubSampler.counter_reset in Hc. subst c.
  rewrite (chain_emitted_every dw k v m T Hk Hv Hm tr 0)
    by (try lia; assumption).
  replace (k - 0) with k by lia. reflexivity.
Qed.

Lemma frontend_decimates_tagged_samples_witness :
  let s := Frontend.State
             (Trigger.State (MultiReg.Make 1 1) (MultiReg.Make 1 1)) 0 in
  let tr := map (fun d => Frontend.Inputs 1 1 true (Payload d 0) true)
                [4; 5; 6; 7; 8; 9] in
  Frontend.accepted 8 2 s tr = [4; 5; 6; 7; 8; 9]
  /\ Frontend.emitted 8 2 s tr = [Payload 6 0; Payload 9 1].
Proof.
  intros s tr. split; [reflexivity|].
  rewrite (frontend_decimates_tagged_samples 8 2 1 1 s tr).
  - reflexivity.
  - split; [lia | reflexivity].
  - reflexivity.
  - split; [reflexivity|]. split; [reflexivity|].
    repeat constructor.
  - reflexivity.
Defined.

(** ** Capture controller: capacity, IDLE and readback *)

(** X10 ([AnalyzerStorage]): whatever the configuration and the stimuli,
    the buffer never holds more than [depth//cd_ratio + 1] words: the
    FIFO's [depth//cd_ratio] entries and its output register. *)
Theorem buffer_never_overflows :
  forall (p : Storage.params) (c : Storage.csr) (tr : list Storage.inputs),
    (Storage.level (Storage.run p c Storage.reset tr)
     <= Storage.mem_depth p + 1)%nat
    /\ (SyncFIFO.inner_level (Storage.mem (Storage.run p c Storage.reset tr))
        <= Storage.mem_depth p)%nat.
Proof.
  intros p c tr.
  pose proof (wf_run p c tr Storage.reset (wf_reset p)) as W.
  split; [apply fifo_level_bound, W | apply W].
Qed.

Lemma idle_hands_off_step (p : Storage.params) (c : Storage.csr)
      (s : Storage.state) (i : Storage.inputs) :
  Storage.fsm s = IDLE -> Host.hands_off i = true ->
  Storage.fsm (Storage.step p c s i) = IDLE
  /\ Storage.contents (Storage.step p c s i) = Storage.contents s
  /\ Storage.writes p s i = false.
Proof.
  intros F H. unfold Host.hands_off in H.
  apply andb_prop in H. destruct H as [Hs Hr].
  apply negb_true_iff in Hs. apply negb_true_iff in Hr.
  split; [|split].
  - unfold Storage.step, Storage.next_state. cbn [Storage.fsm].
    rewrite F, Hs. reflexivity.
  - rewrite contents_step, (idle_writes p s i F), (idle_pops p c s i F), Hr.
    cbn [andb]. apply app_nil_r.
  - apply idle_writes, F.
Qed.

(** X11 ([AnalyzerStorage]): in IDLE, as long as the host neither starts a
    capture nor completes a [mem_ready] handshake, the controller stays in
    IDLE, keeps asserting [sink.ready], writes none of the words it is
    presented and leaves the buffer as it is: incoming words are taken
    and discarded. *)
Theorem idle_discards_input :
  forall (p : Storage.params) (c : Storage.csr)
         (s : Storage.state) (tr : list Storage.inputs) (i : Storage.inputs),
    Storage.fsm s = IDLE ->
    forallb Host.hands_off tr = true ->
    Storage.fsm (Storage.run p c s tr) = IDLE
    /\ Storage.contents (Storage.run p c s tr) = Storage.contents s
    /\ Storage.written p c s tr = []
    /\ Storage.sink_ready (Storage.comb p c (Storage.run p c s tr) i) = true.
Proof.
  intros p c s tr i. revert s.
  assert (G : forall s, Storage.fsm s = IDLE ->
                forallb Host.hands_off tr = true ->
                Storage.fsm (Storage.run p c s tr) = IDLE
                /\ Storage.contents (Storage.run p c s tr) = Storage.contents s
                /\ Storage.written p c s tr = []).
  { induction tr as [|j tr IH]; intros s F H.
    - repeat split. exact F.
    - cbn [forallb] in H. apply andb_prop in H. destruct H as [Hj H].
      destruct (idle_hands_off_step p c s j F Hj) as (F' & C' & W').
      destruct (IH (Storage.step p c s j) F' H) as (A & B & D).
      rewrite run_cons. cbn [Storage.written]. rewrite W', D, B, C'.
      repeat split. exact A. }
  intros s F H. destruct (G s F H) as (A & B & D).
  split; [exact A|]. split; [exact B|]. split; [exact D|].
  cbn [Storage.comb Storage.sink_ready]. rewrite A. reflexivity.
Qed.

Lemma idle_discards_input_witness :
  let p := Storage.Params 8 8 1 in
  let c := Storage.Csr 4 2 in
  let s := Storage.run p c Storage.reset
             ([Storage.start] ++ map Storage.word [10; 11; 12; 13]
              ++ [Storage.trig 14] ++ map Storage.word [15; 16; 17]) in
  let tr := [Storage.word 20; Storage.trig 21; Storage.quiet] in
  Storage.contents s = [14; 15; 16; 17]
  /\ Storage.contents (Storage.run p c s tr) = Storage.contents s.
Proof.
  intros p c s tr. split; [reflexivity|].
  destruct (idle_discards_input p c s tr Storage.quiet eq_refl eq_refl)
    as (_ & B & _).
  exact B.
Defined.

Section Readback.

Variable p : Storage.params.
Variable c : Storage.csr.

Lemma read_step_idle (f : SyncFIFO.t) :
  Storage.step p c (Storage.State IDLE f) Storage.read
  = Storage.State IDLE
      (SyncFIFO.step (Storage.mem_depth p) f false 0 true).
Proof. reflexivity. Qed.

Lemma run_repeat_S (s : Storage.state) (i : Storage.inputs) (n : nat) :
  Storage.run p c s (repeat i (S n))
  = Storage.run p c (Storage.step p c s i) (repeat i n).
Proof. reflexivity. Qed.

(** An empty buffer yields nothing and stays empty. *)
Lemma readback_empty (n : nat) (d : Z) :
  Host.readback p c (Storage.State IDLE (SyncFIFO.Make [] d false)) n = []
  /\ Storage.run p c (Storage.State IDLE (SyncFIFO.Make [] d false))
       (repeat Storage.read n)
     = Storage.State IDLE (SyncFIFO.Make [] d false).
Proof.
  induction n as [|n [IH1 IH2]]; [split; reflexivity|].
  rewrite run_repeat_S. cbn [Host.readback]. rewrite read_step_idle.
  split; [exact IH1 | exact IH2].
Qed.

(** With the output register valid, the register and then the inner FIFO
    are read out in order. *)
Lemma readback_ready (q : list Z) :
  forall (d : Z) (n : nat), (length q + 1 <= n)%nat ->
    Host.readback p c (Storage.State IDLE (SyncFIFO.Make q d true)) n = d :: q
    /\ Storage.contents
         (Storage.run p c (Storage.State IDLE (SyncFIFO.Make q d true))
            (repeat Storage.read n)) = []
    /\ Storage.fsm
         (Storage.run p c (Storage.State IDLE (SyncFIFO.Make q d true))
            (repeat Storage.read n)) = IDLE.
Proof.
  induction q as [|x q IH]; intros d n Hn;
    (destruct n as [|n]; [cbn [length] in Hn; lia|]);
    rewrite run_repeat_S; cbn [Host.readback]; rewrite read_step_idle.
  - destruct (readback_empty n d) as [E1 E2].
    change (SyncFIFO.step (Storage.mem_depth p) (SyncFIFO.Make [] d true)
              false 0 true)
      with (SyncFIFO.Make [] d false).
    rewrite E1, E2. repeat split.
  - replace (SyncFIFO.step (Storage.mem_depth p)
               (SyncFIFO.Make (x :: q) d true) false 0 true)
      with (SyncFIFO.Make q x true)
      by (unfold SyncFIFO.step; cbn; rewrite app_nil_r; reflexivity).
    cbn [length] in Hn.
    destruct (IH x n ltac:(lia)) as (A & B & C).
    rewrite A. repeat split; assumption.
Qed.

End Readback.

(** X12 ([AnalyzerStorage], readback): in IDLE, when the host writes 1 to
    [mem_ready] on [level + 1] or more consecutive cycles, the words shown
    on [mem_data] while [mem_valid] is set are exactly the buffer
    contents, oldest first, each once; the buffer ends empty and the
    controller is still in IDLE. *)
Theorem readback_returns_contents :
  forall (p : Storage.params) (c : Storage.csr) (s : Storage.state) (n : nat),
    Storage.fsm s = IDLE ->
    Storage.wf p s ->
    (Storage.level s + 1 <= n)%nat ->
    Host.readback p c s n = Storage.contents s
    /\ Storage.contents (Storage.run p c s (repeat Storage.read n)) = []
    /\ Storage.fsm (Storage.run p c s (repeat Storage.read n)) = IDLE.
Proof.
  intros p c [f [q d r]] n F [_ W] Hn.
  cbn [Storage.fsm] in F. subst f.
  unfold Storage.level, SyncFIFO.level, SyncFIFO.inner_level in Hn.
  unfold SyncFIFO.inner_level in W.
  cbn [Storage.mem SyncFIFO.q SyncFIFO.readable] in *.
  destruct r.
  - apply readback_ready. lia.
  - specialize (W eq_refl). destruct q as [|x [|y q]]; cbn [length] in *.
    + destruct (readback_empty p c n d) as [E1 E2]. rewrite E1, E2.
      repeat split.
    + destruct n as [|n]; [lia|].
      rewrite run_repeat_S. cbn [Host.readback]. rewrite read_step_idle.
      change (SyncFIFO.step (Storage.mem_depth p) (SyncFIFO.Make [x] d false)
                false 0 true)
        with (SyncFIFO.Make [] x true).
      destruct (readback_ready p c [] x n ltac:(cbn; lia)) as (A & B & C).
      cbn [Storage.comb Storage.mem_valid Storage.mem SyncFIFO.readable app].
      rewrite A. repeat split; assumption.
    + lia.
Qed.

Lemma readback_returns_contents_witness :
  let p := Storage.Params 8 8 1 in
  let c := Storage.Csr 4 2 in
  let s := Storage.run p c Storage.reset
             ([Storage.start] ++ map Storage.word [10; 11; 12; 13]
              ++ [Storage.trig 14] ++ map Storage.word [15; 16; 17]) in
  Host.readback p c s 5 = [14; 15; 16; 17]
  /\ Storage.contents (Storage.run p c s (repeat Storage.read 5)) = [].
Proof.
  intros p c s.
  destruct (readback_returns_contents p c s 5) as (A & B & _).
  - reflexivity.
  - vm_compute. split; intros; [lia | discriminate].
  - vm_compute. lia.
  - split; [exact A | exact B].
Defined.

(** ** Capture controller: how RUN ends *)

Section RunProgress.

Variable p : Storage.params.
Variable c : Storage.csr.

Lemma run_exit_false (s : Storage.state) :
  Storage.run_exit p c s = false ->
  Storage.writable p s = true
  /\ (Storage.level s < Storage.length_storage c)%nat.
Proof.
  unfold Storage.run_exit. intros H. apply orb_false_iff in H.
  destruct H as [W L]. apply negb_false_iff in W. apply Nat.leb_gt in L.
  split; assumption.
Qed.

(** A RUN cycle without an input word changes nothing the exit condition
    looks at. *)
Lemma run_idle_cycle (s : Storage.state) (i : Storage.inputs) :
  Storage.fsm s = RUN -> Storage.wf p s ->
  Storage.run_exit p c s = false ->
  Storage.sink_valid i = false ->
  Storage.fsm (Storage.step p c s i) = RUN
  /\ Storage.contents (Storage.step p c s i) = Storage.contents s
  /\ Storage.run_exit p c (Storage.step p c s i) = false.
Proof.
  intros F Hwf E V. destruct (run_exit_false s E) as [W L].
  assert (F' : Storage.fsm (Storage.step p c s i) = RUN).
  { unfold Storage.step, Storage.next_state. cbn [Storage.fsm].
    rewrite F, E. reflexivity. }
  assert (C' : Storage.contents (Storage.step p c s i) = Storage.contents s).
  { rewrite contents_step, (run_pops p c s i F), (run_writes p s i F), E, V.
    apply app_nil_r. }
  split; [exact F'|]. split; [exact C'|].
  unfold Storage.run_exit. apply orb_false_iff. split.
  - apply negb_false_iff.
    unfold Storage.writable, SyncFIFO.writable in *.
    apply negb_true_iff in W. apply Nat.eqb_neq in W.
    apply negb_true_iff. apply Nat.eqb_neq.
    assert (I : (SyncFIFO.inner_level (Storage.mem (Storage.step p c s i))
                 <= SyncFIFO.inner_level (Storage.mem s))%nat).
    { unfold Storage.step, Storage.mem_we. cbn [Storage.mem].
      rewrite F, V. apply fifo_room_no_write. }
    destruct Hwf as [D _]. lia.
  - apply Nat.leb_gt. rewrite !level_contents, C', <- level_contents. exact L.
Qed.

(** A RUN cycle with an input word and no exit adds one word. *)
Lemma run_word_cycle (s : Storage.state) (i : Storage.inputs) :
  Storage.fsm s = RUN ->
  Storage.run_exit p c s = false ->
  Storage.sink_valid i = true ->
  Storage.fsm (Storage.step p c s i) = RUN
  /\ Storage.level (Storage.step p c s i) = S (Storage.level s).
Proof.
  intros F E V. destruct (run_exit_false s E) as [W L]. split.
  - unfold Storage.step, Storage.next_state. cbn [Storage.fsm].
    rewrite F, E. reflexivity.
  - pose proof (level_step p c s i) as Q.
    rewrite (run_pops p c s i F), (run_writes p s i F), E, V, W in Q.
    cbn [andb] in Q. lia.
Qed.

Lemma run_exit_true_step (s : Storage.state) (i : Storage.inputs) :
  Storage.fsm s = RUN -> Storage.run_exit p c s = true ->
  Storage.fsm (Storage.step p c s i) = IDLE.
Proof.
  intros F E. unfold Storage.step, Storage.next_state. cbn [Storage.fsm].
  rewrite F, E. reflexivity.
Qed.

End RunProgress.

(** X13 ([AnalyzerStorage], RUN): there is no timeout.  A capture in RUN
    whose exit condition does not hold stays in RUN, with the buffer
    unchanged, for as long as no input word is presented. *)
Theorem run_waits_for_input :
  forall (p : Storage.params) (c : Storage.csr)
         (s : Storage.state) (tr : list Storage.inputs),
    Storage.fsm s = RUN ->
    Storage.wf p s ->
    Storage.run_exit p c s = false ->
    forallb (fun i => negb (Storage.sink_valid i)) tr = true ->
    Storage.fsm (Storage.run p c s tr) = RUN
    /\ Storage.contents (Storage.run p c s tr) = Storage.contents s.
Proof.
  intros p c s tr. revert s.
  induction tr as [|i tr IH]; intros s F Hwf E H; [split; [exact F|reflexivity]|].
  cbn [forallb] in H. apply andb_prop in H. destruct H as [Hi H].
  apply negb_true_iff in Hi.
  destruct (run_idle_cycle p c s i F Hwf E Hi) as (F' & C' & E').
  rewrite run_cons.
  destruct (IH (Storage.step p c s i) F' (wf_step p c s i Hwf) E' H) as [A B].
  split; [exact A | rewrite B; exact C'].
Qed.

Lemma run_waits_for_input_witness :
  let p := Storage.Params 8 8 1 in
  let c := Storage.Csr 4 2 in
  let s := Storage.run p c Storage.reset
             ([Storage.start] ++ map Storage.word [10; 11; 12; 13]
              ++ [Storage.trig 14]) in
  let tr := [Storage.quiet; Storage.start; Storage.read; Storage.quiet] in
  Storage.fsm (Storage.run p c s tr) = RUN
  /\ Storage.contents (Storage.run p c s tr) = [13; 14].
Proof.
  intros p c s tr.
  apply (run_waits_for_input p c s tr).
  - reflexivity.
  - vm_compute. split; intros; lia.
  - reflexivity.
  - reflexivity.
Defined.

(** X14 ([AnalyzerStorage], RUN): with a word presented on every cycle a
    capture in RUN always ends, whatever [length] is: IDLE is reached
    after at most [depth//cd_ratio + 2 - level] cycles, because a full
    buffer ends the capture as well. *)
Theorem run_ends_within_capacity :
  forall (p : Storage.params) (c : Storage.csr)
         (s : Storage.state) (tr : list Storage.inputs),
    Storage.fsm s = RUN ->
    Storage.wf p s ->
    forallb Storage.sink_valid tr = true ->
    (Storage.mem_depth p + 2 <= Storage.level s + length tr)%nat ->
    exists n, (1 <= n <= length tr)%nat
              /\ (n + Storage.level s <= Storage.mem_depth p + 2)%nat
              /\ Storage.fsm (Storage.run p c s (firstn n tr)) = IDLE.
Proof.
  intros p c s tr. revert s.
  induction tr as [|i tr IH]; intros s F Hwf Hv Hl.
  - pose proof (fifo_level_bound _ _ Hwf) as B.
    unfold Storage.level in Hl. cbn [length] in Hl. lia.
  - cbn [forallb] in Hv. apply andb_prop in Hv. destruct Hv as [Vi Hv].
    pose proof (fifo_level_bound _ _ Hwf) as B. fold (Storage.level s) in B.
    destruct (Storage.run_exit p c s) eqn:E.
    + exists 1%nat. cbn [length firstn]. split; [lia|]. split; [lia|].
      apply run_exit_true_step; assumption.
    + destruct (run_word_cycle p c s i F E Vi) as [F' L'].
      destruct (IH (Storage.step p c s i) F' (wf_step p c s i Hwf) Hv)
        as (n & Hn & Hb & Hf).
      * rewrite L'. cbn [length] in Hl. lia.
      * exists (S n). cbn [length firstn]. rewrite run_cons.
        split; [lia|]. split; [rewrite L' in Hb; lia | exact Hf].
Qed.

Lemma run_ends_within_capacity_witness :
  let p := Storage.Params 8 4 1 in
  let c := Storage.Csr 7 2 in
  let s := Storage.run p c Storage.reset
             ([Storage.start] ++ map Storage.word [10; 11; 12; 13]
              ++ [Storage.trig 14]) in
  let tr := map Storage.word [15; 16; 17; 18; 19] in
  exists n, (1 <= n <= length tr)%nat
            /\ (n + Storage.level s <= Storage.mem_depth p + 2)%nat
            /\ Storage.fsm (Storage.run p c s (firstn n tr)) = IDLE.
Proof.
  intros p c s tr.
  apply (run_ends_within_capacity p c s tr).
  - reflexivity.
  - vm_compute. split; intros; lia.
  - reflexivity.
  - vm_compute. lia.
Defined.

(** ** Capture controller: a second capture *)

(** X15 ([AnalyzerStorage]): the window of a capture does not depend on
    what came before, provided the buffer is empty when the capture is
    started.  From any IDLE state with an empty buffer (after reset, or
    after the host has read a previous capture back), with
    [2 <= offset <= length <= depth//cd_ratio], a word on every cycle and
    at least [offset] words before the hit word, the capture returns to
    IDLE holding the last [offset - 2] words before the hit word, the hit
    word, the [length - offset] words after it and the word of the exit
    cycle. *)
Theorem capture_window_from_empty_buffer :
  forall (p : Storage.params) (c : Storage.csr) (s0 : Storage.state)
         (pre : list Z) (h : Z) (post : list Z) (i : Storage.inputs),
    Storage.fsm s0 = IDLE ->
    Storage.wf p s0 ->
    Storage.contents s0 = [] ->
    (2 <= Storage.offset_storage c <= Storage.length_storage c)%nat ->
    (Storage.length_storage c <= Storage.mem_depth p)%nat ->
    (Storage.offset_storage c <= length pre)%nat ->
    length post
    = (Storage.length_storage c - Storage.offset_storage c)%nat ->
    let s := Storage.run p c s0
               (Storage.start :: map Storage.word pre
                ++ Storage.trig h :: map Storage.word post) in
    let s' := Storage.step p c s i in
    let w := if Storage.sink_valid i then [data (Storage.sink i)] else [] in
    Storage.fsm s = RUN
    /\ Storage.fsm s' = IDLE
    /\ Storage.contents s'
       = lastn (Storage.offset_storage c - 2) pre ++ h :: post ++ w.
Proof.
  intros p c s0 pre h post i Fi Wi Ci Ho Hd Hpre Hpost s s' w.
  set (o := Storage.offset_storage c) in *.
  set (n := Storage.length_storage c) in *.
  assert (Hod : (2 <= o <= Storage.mem_depth p)%nat) by lia.
  (* the start pulse *)
  set (sa := Storage.step p c s0 Storage.start).
  assert (Fa : Storage.fsm sa = WAIT).
  { unfold sa, Storage.step, Storage.next_state. cbn [Storage.fsm].
    rewrite Fi. reflexivity. }
  assert (Wa : Storage.wf p sa) by (apply wf_step, Wi).
  assert (Ca : Storage.contents sa = []).
  { unfold sa. rewrite contents_step, (idle_writes p s0 _ Fi).
    rewrite (idle_pops p c s0 _ Fi), Ci. reflexivity. }
  assert (La : (Storage.level sa <= o)%nat)
    by (rewrite level_contents, Ca; cbn; lia).
  (* WAIT over the words before the hit *)
  set (sb := Storage.run p c sa (map Storage.word pre)).
  assert (Fb : Storage.fsm sb = WAIT)
    by (apply wait_stays; [exact Fa | apply words_no_trigger]).
  assert (Wb : Storage.wf p sb) by (apply wf_run, Wa).
  assert (Cb : Storage.contents sb = lastn o pre).
  { unfold sb. rewrite (wait_slide_run p c Hod _ sa Fa Wa
                          (words_no_trigger pre) (words_valid pre) La).
    rewrite Ca, words_data. reflexivity. }
  assert (Lb : Storage.level sb = o)
    by (rewrite level_contents, Cb, lastn_length; lia).
  (* the hit word *)
  set (sc := Storage.step p c sb (Storage.trig h)).
  assert (Fc : Storage.fsm sc = RUN).
  { unfold sc, Storage.step, Storage.next_state. cbn [Storage.fsm].
    rewrite Fb. reflexivity. }
  assert (Wc : Storage.wf p sc) by (apply wf_step, Wb).
  assert (Cc : Storage.contents sc = lastn (o - 1) pre ++ [h]).
  { unfold sc. rewrite (wait_slide_step p c sb (Storage.trig h) Fb Wb Hod)
      by (try reflexivity; lia).
    rewrite Cb, lastn_lastn_app. cbn [Storage.trig Storage.sink data].
    rewrite lastn_app by (cbn; lia). reflexivity. }
  assert (Lc : Storage.level sc = o).
  { rewrite level_contents, Cc, length_app, lastn_length. cbn. lia. }
  (* RUN over the words after the hit *)
  set (sd := Storage.run p c sc (map Storage.word post)).
  destruct (run_fill p c (map Storage.word post) sc Fc Wc (words_valid post) Hd)
    as [Fd Cd]; [rewrite length_map; lia|].
  fold sd in Fd, Cd. rewrite words_data, Cc in Cd.
  assert (Wd : Storage.wf p sd) by (apply wf_run, Wc).
  assert (Ld : Storage.level sd = n).
  { rewrite level_contents, Cd, !length_app, lastn_length. cbn. lia. }
  assert (E : s = sd).
  { unfold s, sd, sc, sb, sa.
    rewrite run_cons, run_app, run_cons. reflexivity. }
  subst s'. rewrite E.
  (* the exit cycle *)
  assert (Rd : SyncFIFO.readable (Storage.mem sd) = true)
    by (apply (wf_readable p); [exact Wd | lia]).
  assert (X : Storage.run_exit p c sd = true).
  { unfold Storage.run_exit. fold n. rewrite Ld, Nat.leb_refl.
    apply orb_true_r. }
  assert (Wr : Storage.writes p sd i = Storage.sink_valid i).
  { rewrite (run_writes p sd i Fd), (writable_readable p sd Rd) by lia.
    apply andb_true_r. }
  split; [exact Fd|]. split.
  { apply run_exit_true_step; assumption. }
  rewrite contents_step, (run_pops p c sd i Fd), X, Rd, Wr, Cd.
  cbn [andb]. fold w.
  assert (P : tl ((lastn (o - 1) pre ++ [h]) ++ post)
              = lastn (o - 2) pre ++ h :: post).
  { rewrite <- app_assoc.
    destruct (Nat.eq_dec o 2) as [O2|O2].
    - replace (o - 1)%nat with 1%nat by lia.
      replace (o - 2)%nat with 0%nat by lia.
      assert (Q : length (lastn 1 pre) = 1%nat)
        by (rewrite lastn_length; lia).
      destruct (lastn 1 pre) as [|x [|y r]]; cbn [length] in Q; try lia.
      replace (lastn 0 pre) with (@nil Z)
        by (unfold lastn; rewrite Nat.sub_0_r, skipn_all; reflexivity).
      reflexivity.
    - rewrite tl_app_nonempty.
      + replace (o - 1)%nat with (S (o - 2)) by lia.
        rewrite tl_lastn by lia. reflexivity.
      + intros Z0. apply (f_equal (@length Z)) in Z0.
        rewrite lastn_length in Z0. cbn in Z0. lia. }
  rewrite P, <- app_assoc. reflexivity.
Qed.

Lemma capture_window_from_empty_buffer_witness :
  let p := Storage.Params 8 8 1 in
  let c := Storage.Csr 4 2 in
  let s1 := Storage.run p c Storage.reset
              ([Storage.start] ++ map Storage.word [10; 11; 12; 13]
               ++ [Storage.trig 14] ++ map Storage.word [15; 16; 17]) in
  let s0 := Storage.run p c s1 (repeat Storage.read 5) in
  let s := Storage.run p c s0
             (Storage.start :: map Storage.word [20; 21; 22]
              ++ Storage.trig 23 :: map Storage.word [24; 25]) in
  Storage.contents s1 = [14; 15; 16; 17]
  /\ Storage.contents s0 = []
  /\ Storage.contents (Storage.step p c s (Storage.word 26))
     = [23; 24; 25; 26].
Proof.
  intros p c s1 s0 s. split; [reflexivity|]. split; [reflexivity|].
  destruct (capture_window_from_empty_buffer p c s0 [20; 21; 22] 23 [24; 25]
              (Storage.word 26)) as (_ & _ & C).
  - reflexivity.
  - vm_compute. split; intros; lia.
  - reflexivity.
  - vm_compute. lia.
  - vm_compute. lia.
  - vm_compute. lia.
  - reflexivity.
  - exact C.
Defined.

(** ** The metadata file *)

Section Csv.

Import Analyzer.

Local Notation "a +++ b" := (String.append a b)
  (at level 60, right associativity).
Local Notation "ch ::: s" := (String.String ch s)
  (at level 60, right associativity).
Local Abbreviation nil_string := String.EmptyString.

Lemma append_assoc (a b c : String.string) : (a +++ b) +++ c = a +++ b +++ c.
Proof. induction a as [|x a IH]; cbn; [reflexivity | rewrite IH; reflexivity]. Qed.

Lemma append_nil_r (a : String.string) : a +++ nil_string = a.
Proof. induction a as [|x a IH]; cbn; [reflexivity | rewrite IH; reflexivity]. Qed.

Lemma free_of_append (ch : Ascii.ascii) (a b : String.string) :
  free_of ch (a +++ b) = free_of ch a && free_of ch b.
Proof.
  induction a as [|x a IH]; cbn; [reflexivity|].
  rewrite IH. apply andb_assoc.
Qed.

(** A string without the separator is a single field. *)
Lemma split_free (sep : Ascii.ascii) (s : String.string) :
  free_of sep s = true -> split sep s = [s].
Proof.
  induction s as [|x s IH]; cbn; [reflexivity|]. intros H.
  apply andb_prop in H. destruct H as [Hx Hs].
  apply negb_true_iff in Hx. rewrite Hx, (IH Hs). reflexivity.
Qed.

(** The first separator ends the first field. *)
Lemma split_app_sep (sep : Ascii.ascii) (a r : String.string) :
  free_of sep a = true ->
  split sep (a +++ sep ::: r) = a :: split sep r.
Proof.
  induction a as [|x a IH]; cbn; intros H.
  - rewrite Ascii.eqb_refl. reflexivity.
  - apply andb_prop in H. destruct H as [Hx Ha].
    apply negb_true_iff in Hx. rewrite Hx, (IH Ha). reflexivity.
Qed.

Lemma join_cons (x y : String.string) (l : list String.string) :
  join (x :: y :: l) = x +++ comma ::: join (y :: l).
Proof. reflexivity. Qed.

Lemma split_join (fields : list String.string) :
  fields <> [] ->
  Forall (fun f => free_of comma f = true) fields ->
  split comma (join fields) = fields.
Proof.
  induction fields as [|x l IH]; [congruence|]. intros _ H.
  inversion H as [|? ? Hx Hl]; subst.
  destruct l as [|y l].
  - cbn [join String.concat]. apply split_free, Hx.
  - rewrite join_cons, split_app_sep by exact Hx.
    rewrite IH; [reflexivity | discriminate | exact Hl].
Qed.

Lemma free_join (fields : list String.string) :
  Forall (fun f => free_of newline f = true) fields ->
  free_of newline (join fields) = true.
Proof.
  induction fields as [|x l IH]; intros H; [reflexivity|].
  inversion H as [|? ? Hx Hl]; subst.
  destruct l as [|y l]; [exact Hx|].
  rewrite join_cons, free_of_append, Hx.
  cbn [free_of andb]. rewrite (IH Hl). reflexivity.
Qed.

(** Decimal digits contain neither a comma nor a newline. *)
Lemma free_of_digits (d : Decimal.uint) :
  free_of comma (DecimalString.NilEmpty.string_of_uint d) = true
  /\ free_of newline (DecimalString.NilEmpty.string_of_uint d) = true.
Proof.
  induction d as [|d [A B]|d [A B]|d [A B]|d [A B]|d [A B]|d [A B]
                  |d [A B]|d [A B]|d [A B]|d [A B]];
    cbn [DecimalString.NilEmpty.string_of_uint free_of];
    rewrite ?A, ?B; split; reflexivity.
Qed.

Lemma free_of_str (n : nat) :
  free_of comma (str n) = true /\ free_of newline (str n) = true.
Proof.
  unfold str, DecimalString.NilZero.string_of_uint.
  destruct (Nat.to_uint n) eqn:E; try (rewrite <- E; apply free_of_digits).
  split; reflexivity.
Qed.

(** The text is the lines one after the other. *)
Lemma export_fold (l : list (list String.string)) (acc : String.string) :
  fold_left (fun r row => r +++ format_line row) l acc
  = acc +++ fold_right (fun row r => format_line row +++ r) nil_string l.
Proof.
  revert acc. induction l as [|row l IH]; intros acc; cbn [fold_left fold_right].
  - symmetry. apply append_nil_r.
  - rewrite IH, append_assoc. reflexivity.
Qed.

Lemma split_lines (l : list (list String.string)) :
  Forall (Forall (fun f => free_of newline f = true)) l ->
  split newline (fold_right (fun row r => format_line row +++ r) nil_string l)
  = map join l ++ [nil_string].
Proof.
  induction l as [|row l IH]; intros H; [reflexivity|].
  inversion H as [|? ? Hr Hl]; subst.
  cbn [fold_right map app]. unfold format_line at 1.
  rewrite append_assoc. cbn [String.append].
  rewrite split_app_sep by (apply free_join, Hr).
  rewrite (IH Hl). reflexivity.
Qed.

Lemma rows_free (dw depth cd_ratio : nat) (sigs : list (String.string * nat)) :
  Forall (fun s => free_of comma (fst s) = true
                   /\ free_of newline (fst s) = true) sigs ->
  Forall (Forall (fun f => free_of comma f = true)) (rows dw depth cd_ratio sigs)
  /\ Forall (Forall (fun f => free_of newline f = true))
            (rows dw depth cd_ratio sigs).
Proof.
  intros H. unfold rows.
  pose proof (free_of_str dw) as [D1 D2].
  pose proof (free_of_str depth) as [E1 E2].
  pose proof (free_of_str cd_ratio) as [F1 F2].
  split; repeat (apply Forall_cons; [repeat constructor; assumption|]);
    apply Forall_map; (eapply Forall_impl; [|exact H]);
    intros [nm w] [A B]; cbn [fst snd] in *;
    destruct (free_of_str w) as [W1 W2]; repeat constructor; assumption.
Qed.

End Csv.

(** X16 ([export_csv]): when no signal name contains a comma or a
    newline, the exported text reads back as it was written.  Cut at
    newlines it gives one line per row and an empty remainder after the
    last newline: three configuration rows, then one row per signal in
    list order; each line cut at commas gives back its three fields. *)
Theorem export_csv_reads_back :
  forall (dw depth cd_ratio : nat) (sigs : list (String.string * nat)),
    Forall (fun s => Analyzer.free_of Analyzer.comma (fst s) = true
                     /\ Analyzer.free_of Analyzer.newline (fst s) = true)
           sigs ->
    let text := Analyzer.export_csv dw depth cd_ratio sigs in
    let rows := Analyzer.rows dw depth cd_ratio sigs in
    Analyzer.split Analyzer.newline text
    = map Analyzer.join rows ++ [String.EmptyString]
    /\ map (fun line => Analyzer.split Analyzer.comma line)
           (map Analyzer.join rows) = rows
    /\ length rows = (3 + length sigs)%nat.
Proof.
  intros dw depth cd_ratio sigs H text rows. subst text rows.
  destruct (rows_free dw depth cd_ratio sigs H) as [Hc Hn].
  split; [|split].
  - unfold Analyzer.export_csv. rewrite export_fold.
    cbn [String.append]. apply split_lines, Hn.
  - assert (Hne : Forall (fun row => row <> [])
                         (Analyzer.rows dw depth cd_ratio sigs)).
    { unfold Analyzer.rows. repeat (apply Forall_cons; [discriminate|]).
      apply Forall_map. apply Forall_forall. intros; discriminate. }
    induction (Analyzer.rows dw depth cd_ratio sigs) as [|row l IH];
      [reflexivity|].
    inversion Hc; inversion Hn; inversion Hne; subst.
    cbn [map]. rewrite split_join by assumption.
    rewrite IH by assumption. reflexivity.
  - unfold Analyzer.rows. cbn [length]. rewrite length_map. reflexivity.
Qed.

Lemma export_csv_reads_back_witness :
  let sigs := [(Analyzer.s_dw, 3%nat); (Analyzer.s_depth, 12%nat)] in
  Analyzer.split Analyzer.newline (Analyzer.export_csv 16 1024 1 sigs)
  = map Analyzer.join (Analyzer.rows 16 1024 1 sigs) ++ [String.EmptyString]
  /\ length (Analyzer.split Analyzer.newline
               (Analyzer.export_csv 16 1024 1 sigs)) = 6%nat.
Proof.
  intros sigs.
  destruct (export_csv_reads_back 16 1024 1 sigs) as (A & _ & _).
  - repeat constructor.
  - split; [exact A|]. rewrite A. reflexivity.
Defined.

(** ** Width of the window registers *)

(** X17 ([AnalyzerStorage]): the [length] and [offset] CSRs are
    [bits_for(depth)] bits wide, which is just enough for [depth]: every
    value up to [depth] fits, and the largest value they can hold is
    below [2*depth]. *)
Theorem window_registers_hold_depth :
  forall depth : Z,
    1 <= depth ->
    Analyzer.bits_for depth = Z.log2 depth + 1
    /\ depth < 2 ^ Analyzer.bits_for depth <= 2 * depth.
Proof.
  intros depth H.
  assert (E : Analyzer.bits_for depth = Z.log2 depth + 1).
  { unfold Analyzer.bits_for, Analyzer.log2_int, Analyzer.bit_length.
    destruct (Z.ltb_spec 0 depth) as [L|L]; [|lia].
    destruct (Z.eqb_spec (depth + 1) 0) as [A|A]; [lia|].
    replace (depth + 1 - 1) with depth by lia.
    destruct (Z.eqb_spec depth 0) as [B|B]; [lia|].
    rewrite Z.abs_eq by lia. reflexivity. }
  split; [exact E|]. rewrite E.
  pose proof (Z.log2_spec depth ltac:(lia)) as [L U].
  pose proof (Z.log2_nonneg depth) as N. unfold Z.succ in U.
  split; [exact U|].
  rewrite Z.pow_add_r by lia. change (2 ^ 1) with 2. lia.
Qed.

Lemma window_registers_hold_depth_witness :
  Analyzer.bits_for 1024 = 11 /\ 1024 < 2 ^ Analyzer.bits_for 1024 <= 2 * 1024.
Proof.
  apply (window_registers_hold_depth 1024). lia.
Defined.
